(** * Analytical placement solver and placement consistency check

    A shallow embedding of
      - vpr/src/place/analytical_placement/AnalyticalSolver.cpp
        (the hybrid clique/star quadratic solver), and
      - vpr/src/place/placer.cpp
        (construction of the cost record and the final consistency check),
    followed by the properties established about them.

    A C++ [double] is an IEEE-754 binary64 number and is embedded as Rocq's
    primitive [float], so rounding, infinities and NaN behave as in the
    program.  [size_t] indices are [nat]; [int] counters are [Z]. *)

From Stdlib Require Import ZArith List Bool Lia String Floats Reals Lra.
From stdpp Require Import base list pretty.
Import ListNotations.

Set Warnings "-inexact-float".

Local Open Scope nat_scope.

(** ** Fatal errors

    [VTR_ASSERT], [VPR_ERROR] and [VPR_FATAL_ERROR] end the run.  A
    computation that may do so returns a [result]. *)

Inductive result (A : Type) : Type :=
| Ok (a : A)
| Fatal (msg : string).

Arguments Ok {A} a.
Arguments Fatal {A} msg.

Global Instance result_ret : MRet result := fun A a => Ok a.

Global Instance result_bind : MBind result := fun A B k r =>
  match r with
  | Ok a => k a
  | Fatal msg => Fatal msg
  end.

(** [VTR_ASSERT(cond && "msg")]. *)
Definition VTR_ASSERT (cond : bool) (msg : string) : result unit :=
  if cond then Ok tt else Fatal msg.

Definition is_ok {A : Type} (r : result A) : bool :=
  match r with Ok _ => true | Fatal _ => false end.

(** ** Numbers *)

(** [static_cast<double>(n)] for an [int] n. *)
Definition double_of_int (z : Z) : float :=
  if (z <? 0)%Z
  then PrimFloat.opp (PrimFloat.of_uint63 (Uint63.of_Z (- z)))
  else PrimFloat.of_uint63 (Uint63.of_Z z).

(** [(double)n] for an [unsigned] n. *)
Definition double_of_unsigned (n : nat) : float :=
  PrimFloat.of_uint63 (Uint63.of_Z (Z.of_nat n)).

(** ** Dense vectors ([Eigen::VectorXd], [std::vector<double>]) *)

Abbreviation Vec := (list float).

(** [Eigen::VectorXd::Zero(n)]. *)
Definition Vec_Zero (n : nat) : Vec := replicate n 0%float.

(** [v[i]] read.  Reading past the end is undefined in the program; the
    model yields zero there. *)
Definition vec_get (v : Vec) (i : nat) : float := default 0%float (v !! i).

(** [v(i) += d].  Writing past the end is undefined in the program; the
    model leaves the vector as it is. *)
Definition vec_add_at (v : Vec) (i : nat) (d : float) : Vec :=
  alter (fun x => (x + d)%float) i v.

(** [v.hasNaN()]. *)
Definition hasNaN (v : Vec) : bool := existsb PrimFloat.is_nan v.

(** ** Sparse matrices ([Eigen::SparseMatrix<double>])

    A matrix is kept as the sequence of (row, column, value) contributions
    made to it.  [setFromTriplets] sums the contributions of one position in
    the order they were given, and [coeffRef(i,j) += v] adds one more. *)

Record Triplet : Type := mkTriplet { t_row : nat; t_col : nat; t_value : float }.

Record SparseMatrix : Type := mkSparse
  { m_rows : nat; m_cols : nat; m_triplets : list Triplet }.

Definition at_pos (i j : nat) (t : Triplet) : bool :=
  (t_row t =? i) && (t_col t =? j).

(** The contributions made to position (i,j), oldest first. *)
Definition entry_values (l : list Triplet) (i j : nat) : list float :=
  map t_value (List.filter (at_pos i j) l).

Definition sum_duplicates (vs : list float) : float :=
  match vs with
  | [] => 0%float
  | v :: vs' => fold_left PrimFloat.add vs' v
  end.

(** [A.coeff(i,j)]; a position without a contribution reads as zero. *)
Definition coeff (A : SparseMatrix) (i j : nat) : float :=
  sum_duplicates (entry_values (m_triplets A) i j).

(** Whether position (i,j) is stored at all. *)
Definition has_entry (A : SparseMatrix) (i j : nat) : bool :=
  existsb (at_pos i j) (m_triplets A).

(** [Eigen::SparseMatrix<double>(n, n)] followed by [setFromTriplets]. *)
Definition setFromTriplets (n : nat) (l : list Triplet) : SparseMatrix :=
  mkSparse n n l.

(** [A.coeffRef(i,j) += v]. *)
Definition coeffRef_add (A : SparseMatrix) (i j : nat) (v : float) : SparseMatrix :=
  mkSparse (m_rows A) (m_cols A) (m_triplets A ++ [mkTriplet i j v]).

(** ** Netlist and partial placement

    [AtomNetlist] and [PartialPlacement] are declared outside the translated
    sources; the model keeps exactly the queries the solver makes.
    [get_node_id_from_blk] is taken with the global [atom_molecules] table
    already supplied. *)

Definition AtomNetId := nat.
Definition AtomPinId := nat.
Definition AtomBlockId := nat.

Record AtomNetlist : Type := mkNetlist
  { nets : list AtomNetId;
    net_pins : AtomNetId -> list AtomPinId;
    pin_block : AtomPinId -> AtomBlockId }.

(** [netlist.net_pin_block(net_id, ipin)]. *)
Definition net_pin_block (nl : AtomNetlist) (net_id : AtomNetId) (ipin : nat)
  : AtomBlockId :=
  pin_block nl (nth ipin (net_pins nl net_id) 0).

Record PartialPlacement : Type := mkPlacement
  { atom_netlist : AtomNetlist;
    num_moveable_nodes : nat;
    node_loc_x : Vec;
    node_loc_y : Vec;
    net_is_ignored_for_placement : AtomNetId -> bool;
    get_node_id_from_blk : AtomBlockId -> nat }.

(** Modelled from the spec: [PartialPlacement::is_moveable_node] is declared
    in a header that is not part of the sources.  The moveable nodes are the
    indices [0 .. num_moveable_nodes-1]; fixed nodes come after them. *)
Definition is_moveable_node (p : PartialPlacement) (node_id : nat) : bool :=
  node_id <? num_moveable_nodes p.

(** ** populate_hybrid_matrix *)

(** What the second loop of [populate_hybrid_matrix] builds up:
    [tripletList] and the two right-hand sides. *)
Record Assembly : Type := mkAssembly
  { tripletList : list Triplet; asm_b_x : Vec; asm_b_y : Vec }.

(** [tripletList.emplace_back(...)], several in a row. *)
Definition emplace_back (st : Assembly) (ts : list Triplet) : Assembly :=
  mkAssembly (tripletList st ++ ts) (asm_b_x st) (asm_b_y st).

(** The four contributions of a connection between two unknowns. *)
Definition connect_moveable (a b : nat) (w : float) : list Triplet :=
  [ mkTriplet a a w; mkTriplet b b w;
    mkTriplet a b (- w)%float; mkTriplet b a (- w)%float ].

(** The contribution of a connection between unknown [a] and the fixed node
    [fixed_id]: one diagonal entry and the two right-hand sides. *)
Definition connect_fixed (p : PartialPlacement) (a fixed_id : nat) (w : float)
    (st : Assembly) : Assembly :=
  mkAssembly (tripletList st ++ [mkTriplet a a w])
    (vec_add_at (asm_b_x st) a (w * vec_get (node_loc_x p) fixed_id)%float)
    (vec_add_at (asm_b_y st) a (w * vec_get (node_loc_y p) fixed_id)%float).

(** First loop: one star node per net that is kept and has more than three
    pins. *)
Fixpoint count_star_nodes (p : PartialPlacement) (l : list AtomNetId) : nat :=
  match l with
  | [] => 0
  | net_id :: rest =>
      if net_is_ignored_for_placement p net_id then count_star_nodes p rest
      else if 3 <? length (net_pins (atom_netlist p) net_id)
           then S (count_star_nodes p rest)
           else count_star_nodes p rest
  end.

(** Weight of a star connection of a net with [num_pins] pins. *)
Definition star_weight (num_pins : Z) : float :=
  (double_of_int num_pins / double_of_int (num_pins - 1))%float.

(** Weight of a clique connection of a net with [num_pins] pins. *)
Definition clique_weight (num_pins : Z) : float :=
  (1 / double_of_int (num_pins - 1))%float.

(** Body of the loop over the pins of a star net. *)
Definition star_pin (p : PartialPlacement) (w : float) (star_node_id : nat)
    (st : Assembly) (pin_id : AtomPinId) : Assembly :=
  let blk_id := pin_block (atom_netlist p) pin_id in
  let node_id := get_node_id_from_blk p blk_id in
  if is_moveable_node p node_id
  then emplace_back st (connect_moveable star_node_id node_id w)
  else connect_fixed p star_node_id node_id w st.

Definition star_net (p : PartialPlacement) (net_id : AtomNetId)
    (star_node_offset : nat) (st : Assembly) : Assembly :=
  let num_pins := Z.of_nat (length (net_pins (atom_netlist p) net_id)) in
  let w := star_weight num_pins in
  let star_node_id := num_moveable_nodes p + star_node_offset in
  fold_left (star_pin p w star_node_id) (net_pins (atom_netlist p) net_id) st.

(** Body of the inner ([jpin]) loop of a clique net.  [first_node_id] is
    declared in the outer loop, so the [std::swap] in one pass is still in
    effect in the next pass: the body returns it with the new state. *)
Definition clique_pair (p : PartialPlacement) (net_id : AtomNetId) (w : float)
    (acc : nat * Assembly) (jpin : nat) : nat * Assembly :=
  let '(first_node_id, st) := acc in
  let second_block_id := net_pin_block (atom_netlist p) net_id jpin in
  let second_node_id := get_node_id_from_blk p second_block_id in
  if negb (is_moveable_node p first_node_id) then
    if negb (is_moveable_node p second_node_id) then
      (first_node_id, st)                                   (* continue *)
    else
      (* swapped: first is the former second, second the former first,
         which is not moveable *)
      (second_node_id, connect_fixed p second_node_id first_node_id w st)
  else if is_moveable_node p second_node_id then
    (first_node_id, emplace_back st (connect_moveable first_node_id second_node_id w))
  else
    (first_node_id, connect_fixed p first_node_id second_node_id w st).

(** Body of the outer ([ipin]) loop of a clique net. *)
Definition clique_pin (p : PartialPlacement) (net_id : AtomNetId) (w : float)
    (num_pins : nat) (st : Assembly) (ipin : nat) : Assembly :=
  let first_block_id := net_pin_block (atom_netlist p) net_id ipin in
  let first_node_id := get_node_id_from_blk p first_block_id in
  snd (fold_left (clique_pair p net_id w)
         (seq (ipin + 1) (num_pins - (ipin + 1))) (first_node_id, st)).

Definition clique_net (p : PartialPlacement) (net_id : AtomNetId)
    (st : Assembly) : Assembly :=
  let num_pins := length (net_pins (atom_netlist p) net_id) in
  let w := clique_weight (Z.of_nat num_pins) in
  fold_left (clique_pin p net_id w num_pins) (seq 0 num_pins) st.

(** Second loop, over the nets. *)
Fixpoint nets_loop (p : PartialPlacement) (l : list AtomNetId)
    (star_node_offset : nat) (st : Assembly) : result Assembly :=
  match l with
  | [] => Ok st
  | net_id :: rest =>
      if net_is_ignored_for_placement p net_id
      then nets_loop p rest star_node_offset st
      else
        let num_pins := length (net_pins (atom_netlist p) net_id) in
        if negb (1 <? num_pins) then Fatal "num_pins > 1"
        else if 3 <? num_pins
        then nets_loop p rest (S star_node_offset) (star_net p net_id star_node_offset st)
        else nets_loop p rest star_node_offset (clique_net p net_id st)
  end.

(** The linear system kept by the solver: [A_sparse], [b_x], [b_y]. *)
Record QPHybridSolver : Type := mkSolver
  { A_sparse : SparseMatrix; b_x : Vec; b_y : Vec }.

Definition populate_hybrid_matrix (p : PartialPlacement) : result QPHybridSolver :=
  let netlist := atom_netlist p in
  let num_star_nodes := count_star_nodes p (nets netlist) in
  let n := num_moveable_nodes p + num_star_nodes in
  st ← nets_loop p (nets netlist) 0 (mkAssembly [] (Vec_Zero n) (Vec_Zero n));
  Ok (mkSolver (setFromTriplets n (tripletList st)) (asm_b_x st) (asm_b_y st)).

(** ** QPHybridSolver::solve

    Eigen's conjugate-gradient solver, its self-adjoint eigenvalue solver and
    libm's [exp] are external to the program.  They enter as parameters of
    the section: whatever they return, the program handles it as below. *)

(** [Eigen::ComputationInfo]. *)
Inductive ComputationInfo : Type :=
| Success | NumericalIssue | NoConvergence | InvalidInput.

Definition is_Success (i : ComputationInfo) : bool :=
  match i with Success => true | _ => false end.

Section Solver.

(** [std::exp]. *)
Variable exp : float -> float.
(** [cg.compute(A); cg.info()]. *)
Variable cg_compute : SparseMatrix -> ComputationInfo.
(** [cg.solve(b); cg.info()] after [cg.compute(A)]. *)
Variable cg_solve : SparseMatrix -> Vec -> Vec * ComputationInfo.
(** Whether the build keeps [VTR_ASSERT_DEBUG]; [VTR_ASSERT] is kept. *)
Variable debug_assertions : bool.

Definition VTR_ASSERT_DEBUG (cond : bool) (msg : string) : result unit :=
  if debug_assertions then VTR_ASSERT cond msg else Ok tt.

Definition coeff_pseudo_anchor (iteration : nat) : float :=
  (0.01 * exp (double_of_unsigned iteration / 5))%float.

(** Body of the loop of [populate_update_hybrid_matrix]. *)
Definition update_node (p : PartialPlacement) (coeff_pseudo_anchor : float)
    (s : QPHybridSolver) (i : nat) : QPHybridSolver :=
  let pseudo_w := coeff_pseudo_anchor in
  mkSolver (coeffRef_add (A_sparse s) i i pseudo_w)
    (vec_add_at (b_x s) i (pseudo_w * vec_get (node_loc_x p) i)%float)
    (vec_add_at (b_y s) i (pseudo_w * vec_get (node_loc_y p) i)%float).

Definition populate_update_hybrid_matrix (diff : QPHybridSolver)
    (p : PartialPlacement) (iteration : nat) : QPHybridSolver :=
  fold_left (update_node p (coeff_pseudo_anchor iteration))
    (seq 0 (num_moveable_nodes p)) diff.

(** First part of [solve]: the stored system after the call, and the copy
    ([A_sparse_diff], [b_x_diff], [b_y_diff]) handed to the solver. *)
Definition system_to_solve (iteration : nat) (self : QPHybridSolver)
    (p : PartialPlacement) : result (QPHybridSolver * QPHybridSolver) :=
  stored ← (if iteration =? 0 then populate_hybrid_matrix p else Ok self);
  let diff := stored in
  let diff := if negb (iteration =? 0)
              then populate_update_hybrid_matrix diff p iteration
              else diff in
  Ok (stored, diff).

(** The loop that stores the solution in the placement. *)
Definition write_node (x y : Vec) (p : PartialPlacement) (node_id : nat)
  : PartialPlacement :=
  mkPlacement (atom_netlist p) (num_moveable_nodes p)
    (<[node_id := vec_get x node_id]> (node_loc_x p))
    (<[node_id := vec_get y node_id]> (node_loc_y p))
    (net_is_ignored_for_placement p) (get_node_id_from_blk p).

Definition write_back (p : PartialPlacement) (x y : Vec) : PartialPlacement :=
  fold_left (write_node x y) (seq 0 (num_moveable_nodes p)) p.

(** Second part of [solve]: the assertions, the three solver calls and the
    write-back. *)
Definition solve_system (diff : QPHybridSolver) (p : PartialPlacement)
  : result PartialPlacement :=
  VTR_ASSERT_DEBUG (negb (hasNaN (b_x diff))) "b_x has NaN!";;
  VTR_ASSERT_DEBUG (negb (hasNaN (b_y diff))) "b_y has NaN!";;
  VTR_ASSERT (is_Success (cg_compute (A_sparse diff)))
    "Conjugate Gradient failed at compute!";;
  let '(x, info) := cg_solve (A_sparse diff) (b_x diff) in
  VTR_ASSERT (is_Success info) "Conjugate Gradient failed at solving b_x!";;
  let '(y, info) := cg_solve (A_sparse diff) (b_y diff) in
  VTR_ASSERT (is_Success info) "Conjugate Gradient failed at solving b_y!";;
  Ok (write_back p x y).

(** [QPHybridSolver::solve]: the solver object and the placement after the
    call, or the fatal error that ended it. *)
Definition solve (iteration : nat) (self : QPHybridSolver)
    (p : PartialPlacement) : result (QPHybridSolver * PartialPlacement) :=
  '(stored, diff) ← system_to_solve iteration self p;
  p' ← solve_system diff p;
  Ok (stored, p').

(** ** QPHybridSolver::isSemiPosDef *)

(** [solver.compute(A); solver.info(); solver.eigenvalues()] of
    [Eigen::SelfAdjointEigenSolver]: the eigenvalues are real. *)
Variable eigen_solver : SparseMatrix -> ComputationInfo * list float.

(** A [std::complex<double>]. *)
Record complex : Type := mkComplex { real : float; imag : float }.

(** Conversion of the real eigenvalues to [Eigen::VectorXcd]. *)
Definition to_VectorXcd (v : list float) : list complex :=
  map (fun r => mkComplex r 0%float) v.

Fixpoint eigenvalue_loop (eigenvalues : list complex) : result bool :=
  match eigenvalues with
  | [] => Ok true
  | e :: rest =>
      VTR_ASSERT (imag e =? 0)%float "Eigenvalue not real!";;
      if (real e <=? 0)%float then Ok false else eigenvalue_loop rest
  end.

Definition isSemiPosDef (A : SparseMatrix) : result bool :=
  let '(info, values) := eigen_solver A in
  VTR_ASSERT (is_Success info) "Eigen solver failed!";;
  eigenvalue_loop (to_VectorXcd values).

End Solver.

(** ** Placer (placer.cpp) *)

(** Modelled from the spec: the enumeration of placement algorithms and its
    [is_timing_driven] query are declared outside the sources; placer.cpp
    names [BOUNDING_BOX_PLACE], the algorithm that is not timing-driven. *)
Inductive e_place_algorithm : Type :=
| BOUNDING_BOX_PLACE | CRITICALITY_TIMING_PLACE | SLACK_TIMING_PLACE.

Definition is_timing_driven (a : e_place_algorithm) : bool :=
  match a with BOUNDING_BOX_PLACE => false | _ => true end.

Definition is_BOUNDING_BOX_PLACE (a : e_place_algorithm) : bool :=
  match a with BOUNDING_BOX_PLACE => true | _ => false end.

Inductive e_cost_methods : Type := NORMAL | CHECK.

Record NocCostTerms : Type := mkNocCostTerms
  { aggregate_bandwidth : float; latency : float;
    latency_overrun : float; congestion : float }.

(** The fields of [t_placer_costs] that placer.cpp reads or writes. *)
Record t_placer_costs : Type := mkCosts
  { cost : float;
    bb_cost : float;
    timing_cost : float;
    bb_cost_norm : float;
    timing_cost_norm : float;
    noc_cost_terms : NocCostTerms;
    noc_cost_norm_factors : NocCostTerms }.

(** [int] arithmetic: the sum reduced to 32 bits, two's complement. *)
Definition int_wrap (z : Z) : Z :=
  ((z + 2147483648) mod 4294967296 - 2147483648)%Z.

Definition int_add (a b : Z) : Z := int_wrap (a + b).

Definition newline : string := String (Ascii.ascii_of_nat 10) EmptyString.

(** The text of the fatal error raised by [check_place_]; [%d] prints the
    error count in decimal. *)
Definition consistency_error_message (error : Z) : string :=
  (newline ++ "Completed placement consistency check, " ++ pretty error
     ++ " errors found." ++ newline ++ "Aborting program." ++ newline)%string.

Section Placer.

(** [PL_INCREMENTAL_COST_TOLERANCE], a constant defined outside the
    sources. *)
Variable PL_INCREMENTAL_COST_TOLERANCE : float.

(** The collaborators, evaluated on the current placement. *)
Variable comp_bb_cost : e_cost_methods -> float.
(** The timing cost [comp_td_costs] computes from scratch. *)
Variable comp_td_costs : float.
(** The timing cost [initialize_timing_info] stores in [costs_]. *)
Variable initialize_timing_info : float.
Variable verify_placement : Z.
Variable check_noc_placement_costs : t_placer_costs -> Z.
Variable noc_routing_has_cycle : bool.
Variable comp_noc_aggregate_bandwidth_cost : float.
Variable comp_noc_latency_cost : float * float.
Variable comp_noc_congestion_cost : float.
Variable update_noc_normalization_factors : t_placer_costs -> NocCostTerms.
Variable get_total_cost : t_placer_costs -> float.

(** The members of [Placer] the two checks depend on. *)
Record Placer : Type := mkPlacer
  { place_algorithm : e_place_algorithm;
    noc : bool;
    costs_ : t_placer_costs }.

(** [fabs(check - tracked) > tracked * PL_INCREMENTAL_COST_TOLERANCE]. *)
Definition differs (check tracked : float) : bool :=
  (tracked * PL_INCREMENTAL_COST_TOLERANCE <? abs (check - tracked))%float.

Definition check_placement_costs_ (self : Placer) : Z :=
  let error := 0%Z in
  let bb_cost_check := comp_bb_cost CHECK in
  let error :=
    if differs bb_cost_check (bb_cost (costs_ self))
    then int_add error 1 else error in
  let error :=
    if is_timing_driven (place_algorithm self) then
      let timing_cost_check := comp_td_costs in
      if differs timing_cost_check (timing_cost (costs_ self))
      then int_add error 1 else error
    else error in
  error.

(** The value of [error] when [check_place_] tests it. *)
Definition check_place_errors (self : Placer) : Z :=
  let error := 0%Z in
  let error := int_add error verify_placement in
  let error := int_add error (check_placement_costs_ self) in
  let error :=
    if noc self then
      let error := int_add error (check_noc_placement_costs (costs_ self)) in
      int_add error (Z.b2z noc_routing_has_cycle)
    else error in
  error.

Definition check_place_ (self : Placer) : result unit :=
  let error := check_place_errors self in
  if (error =? 0)%Z
  then Ok tt   (* "Completed placement consistency check successfully." *)
  else Fatal (consistency_error_message error).

Definition set_timing (c : t_placer_costs) (tc tn : float) : t_placer_costs :=
  mkCosts (cost c) (bb_cost c) tc (bb_cost_norm c) tn
    (noc_cost_terms c) (noc_cost_norm_factors c).

(** [alloc_and_init_timing_objects_], as far as the costs go. *)
Definition alloc_and_init_timing_objects_ (self : Placer) : result Placer :=
  let c := costs_ self in
  let c := set_timing c initialize_timing_info (timing_cost_norm c) in
  let c := set_timing c (timing_cost c) (1 / timing_cost c)%float in
  let self := mkPlacer (place_algorithm self) (noc self) c in
  check_place_ self;;
  Ok self.

(** [Placer::Placer], the part that fills [costs_] (from "Gets initial cost
    and loads bounding boxes" on); [costs0] is [costs_] as its own
    constructor left it.  [update_noc_normalization_factors] writes the NoC
    normalization factors. *)
Definition Placer_Placer (alg : e_place_algorithm) (noc_enabled : bool)
    (costs0 : t_placer_costs) : result Placer :=
  let c := costs0 in
  let c := mkCosts (cost c) (comp_bb_cost NORMAL) (timing_cost c)
             (bb_cost_norm c) (timing_cost_norm c)
             (noc_cost_terms c) (noc_cost_norm_factors c) in
  let c := mkCosts (cost c) (bb_cost c) (timing_cost c)
             (1 / bb_cost c)%float (timing_cost_norm c)
             (noc_cost_terms c) (noc_cost_norm_factors c) in
  self ← (if is_timing_driven alg
          then alloc_and_init_timing_objects_ (mkPlacer alg noc_enabled c)
          else
            VTR_ASSERT (is_BOUNDING_BOX_PLACE alg)
              "placer_opts.place_algorithm == e_place_algorithm::BOUNDING_BOX_PLACE";;
            let INVALID_COST := nan in
            Ok (mkPlacer alg noc_enabled (set_timing c INVALID_COST INVALID_COST)));
  let c := costs_ self in
  let c :=
    if noc_enabled then
      let terms := mkNocCostTerms comp_noc_aggregate_bandwidth_cost
                     (fst comp_noc_latency_cost) (snd comp_noc_latency_cost)
                     comp_noc_congestion_cost in
      let c := mkCosts (cost c) (bb_cost c) (timing_cost c) (bb_cost_norm c)
                 (timing_cost_norm c) terms (noc_cost_norm_factors c) in
      mkCosts (cost c) (bb_cost c) (timing_cost c) (bb_cost_norm c)
        (timing_cost_norm c) (noc_cost_terms c)
        (update_noc_normalization_factors c)
    else c in
  let c := mkCosts (get_total_cost c) (bb_cost c) (timing_cost c)
             (bb_cost_norm c) (timing_cost_norm c)
             (noc_cost_terms c) (noc_cost_norm_factors c) in
  Ok (mkPlacer alg noc_enabled c).

End Placer.

(** ** The pseudo-anchor weight of the specification

    The specification gives the weight as [c0 * exp(k / decay)] for a fixed
    decay > 0.  This is that formula over the real numbers.  It is not the
    value the program computes: that is the binary64 [coeff_pseudo_anchor],
    with c0 = 0.01, decay = 5 and libm's [exp]. *)
Definition pseudo_anchor_weight_spec (c0 decay : R) (k : nat) : R :=
  (c0 * exp (INR k / decay))%R.

(** ** Small placements on which the definitions are run

    In these, a pin, its block and its node carry the same number, and no
    net is ignored. *)

Definition netlist_of (pin_nodes : list (list nat)) : AtomNetlist :=
  mkNetlist (seq 0 (length pin_nodes))
    (fun net_id => nth net_id pin_nodes []) (fun pin_id => pin_id).

Definition placement_of (pin_nodes : list (list nat)) (num_moveable : nat)
    (xs ys : Vec) : PartialPlacement :=
  mkPlacement (netlist_of pin_nodes) num_moveable xs ys
    (fun _ => false) (fun blk_id => blk_id).

(** One net with three pins on the moveable nodes 0, 1 and 2. *)
Definition three_moveable : PartialPlacement :=
  placement_of [[0; 1; 2]] 3 [0; 0; 0]%float [0; 0; 0]%float.

(** Two nets, each joining the moveable nodes 0 and 1. *)
Definition parallel_nets : PartialPlacement :=
  placement_of [[0; 1]; [0; 1]] 2 [0; 0]%float [0; 0]%float.

(** One net whose first pin is on the fixed node 2, at (7,3), and whose
    other two pins are on the moveable nodes 0 and 1. *)
Definition fixed_driver : PartialPlacement :=
  placement_of [[2; 0; 1]] 2 [0; 0; 7]%float [0; 0; 3]%float.

(** One net with four pins on the moveable nodes 0 to 3. *)
Definition four_moveable : PartialPlacement :=
  placement_of [[0; 1; 2; 3]] 4 [0; 0; 0; 0]%float [0; 0; 0; 0]%float.

(** One net from the fixed node 1 to the moveable node 0; the fixed node
    sits at x = [fixed_x]. *)
Definition fixed_neighbour (fixed_x : float) : PartialPlacement :=
  placement_of [[1; 0]] 1 [0; fixed_x]%float [0; 0]%float.

(** A conjugate-gradient stand-in that reports [Success] and returns the
    right-hand side as the solution. *)
Definition cg_compute_succeeds (A : SparseMatrix) : ComputationInfo := Success.

Definition cg_solve_succeeds (A : SparseMatrix) (b : Vec) : Vec * ComputationInfo :=
  (b, Success).

(** A conjugate-gradient stand-in that does not converge. *)
Definition cg_solve_diverges (A : SparseMatrix) (b : Vec) : Vec * ComputationInfo :=
  (b, NoConvergence).

(** A number that is not finite: a NaN or an infinity. *)
Definition non_finite (x : float) : bool :=
  PrimFloat.is_nan x || PrimFloat.is_infinity x.

(** A conjugate-gradient stand-in that does not converge on a right-hand
    side with a NaN or an infinity and otherwise reports [Success], with the
    right-hand side as the solution. *)
Definition cg_solve_checked (A : SparseMatrix) (b : Vec) : Vec * ComputationInfo :=
  if existsb non_finite b then (b, NoConvergence) else (b, Success).

(** A stand-in for [std::exp] in runs at iteration 0, which do not call
    it. *)
Definition exp_not_called (x : float) : float := 1%float.

(** A stand-in for [std::exp] where the result is too large for a double:
    e^x is above the largest double for every x above 709.8, and [std::exp]
    then returns +infinity.  Up to 709.8 the stand-in returns 1 and is not
    meant to be used. *)
Definition exp_overflowing (x : float) : float :=
  if (709.8 <? x)%float then infinity else 1%float.

(** The solver object before its first call: empty matrix and vectors. *)
Definition fresh_solver : QPHybridSolver := mkSolver (mkSparse 0 0 []) [] [].

(** The matrix assembled for [parallel_nets]: 2 on the diagonal, -2 off
    it.  It is positive semidefinite, with the eigenvalues 0 and 4. *)
Definition parallel_nets_matrix : SparseMatrix :=
  setFromTriplets 2 (connect_moveable 0 1 1 ++ connect_moveable 0 1 1).

(** An eigenvalue solver stand-in that returns the eigenvalues 0 and 4 of
    [parallel_nets_matrix]. *)
Definition eigen_solver_zero_four (A : SparseMatrix) : ComputationInfo * list float :=
  (Success, [0; 4]%float).

(** A cost record with every term at zero, as a starting value. *)
Definition zero_costs : t_placer_costs :=
  mkCosts 0 0 0 0 0 (mkNocCostTerms 0 0 0 0) (mkNocCostTerms 0 0 0 0).

(** An eigenvalue solver stand-in that returns a NaN beside the
    eigenvalue 1. *)
Definition eigen_solver_nan (A : SparseMatrix) : ComputationInfo * list float :=
  (Success, [nan; 1]%float).

(** A placer that runs the bounding-box algorithm without NoC and tracks a
    NaN as its bounding-box cost. *)
Definition placer_with_nan_cost : Placer :=
  mkPlacer BOUNDING_BOX_PLACE false
    (mkCosts 0 nan 0 0 0 (mkNocCostTerms 0 0 0 0) (mkNocCostTerms 0 0 0 0)).

(** [fixed_driver] with its two moveable nodes somewhere else. *)
Definition fixed_driver_moved : PartialPlacement :=
  placement_of [[2; 0; 1]] 2 [5; 6; 7]%float [8; 9; 3]%float.

(** One net with two pins, on the fixed nodes 1 and 2; node 0 is
    moveable. *)
Definition fixed_pair : PartialPlacement :=
  placement_of [[1; 2]] 1 [0; 4; 6]%float [0; 5; 7]%float.

(** ** Vocabulary of the properties *)

(** The weight [populate_hybrid_matrix] uses for a net. *)
Definition net_weight (p : PartialPlacement) (net_id : AtomNetId) : float :=
  let num_pins := length (net_pins (atom_netlist p) net_id) in
  if 3 <? num_pins then star_weight (Z.of_nat num_pins)
  else clique_weight (Z.of_nat num_pins).

(** A net the second loop does not skip. *)
Definition kept_net (p : PartialPlacement) (net_id : AtomNetId) : Prop :=
  In net_id (nets (atom_netlist p))
  /\ net_is_ignored_for_placement p net_id = false.

(** The unknowns of the system: the moveable nodes and the star nodes. *)
Inductive unknown (p : PartialPlacement) (n_star : nat) (a : nat) : Prop :=
| unknown_moveable : is_moveable_node p a = true -> unknown p n_star a
| unknown_star (k : nat) :
    k < n_star -> a = num_moveable_nodes p + k -> unknown p n_star a.

(** The systems reached from the empty one by two kinds of steps: a
    connection between two unknowns, which adds four matrix entries, and a
    connection of an unknown to a fixed node, which adds one diagonal entry
    for the unknown and the weighted position of the fixed node to the two
    right-hand sides.  Each step is weighted by a kept net. *)
Inductive assembled (p : PartialPlacement) (n_star : nat) : Assembly -> Prop :=
| assembled_start :
    assembled p n_star
      (mkAssembly [] (Vec_Zero (num_moveable_nodes p + n_star))
         (Vec_Zero (num_moveable_nodes p + n_star)))
| assembled_pair (st : Assembly) (a b : nat) (net_id : AtomNetId) :
    assembled p n_star st -> unknown p n_star a -> unknown p n_star b ->
    kept_net p net_id ->
    assembled p n_star
      (emplace_back st (connect_moveable a b (net_weight p net_id)))
| assembled_fixed (st : Assembly) (a fixed_id : nat) (net_id : AtomNetId) :
    assembled p n_star st -> unknown p n_star a ->
    is_moveable_node p fixed_id = false -> kept_net p net_id ->
    assembled p n_star (connect_fixed p a fixed_id (net_weight p net_id) st).

(** A contribution away from the diagonal is the negated weight of a kept
    net. *)
Definition negated_net_weight (p : PartialPlacement) (v : float) : Prop :=
  exists net_id, kept_net p net_id /\ v = (- net_weight p net_id)%float.

(** What one pin pair of a clique net adds to the triplet list for weight
    [w]: for two moveable nodes [a] and [b], [w] at (a,a) and (b,b) and
    [- w] at (a,b) and (b,a); for a moveable node [a] and a fixed node, [w]
    at (a,a). *)
Definition clique_connection (p : PartialPlacement) (w : float)
    (g : list Triplet) : Prop :=
  (exists a b,
      is_moveable_node p a = true /\ is_moveable_node p b = true
      /\ g = [ mkTriplet a a w; mkTriplet b b w;
               mkTriplet a b (- w)%float; mkTriplet b a (- w)%float ])
  \/ (exists a, is_moveable_node p a = true /\ g = [mkTriplet a a w]).

(** [st'] has the triplets of [st] followed by groups of triplets that
    satisfy [Q]. *)
Definition extends_with (Q : list Triplet -> Prop) (st st' : Assembly) : Prop :=
  exists groups,
    tripletList st' = tripletList st ++ concat groups /\ Forall Q groups.

(** The claim as the specification words it: the connections of a clique
    net [net_id] carry the weight [w]. *)
Definition clique_edges_weigh (p : PartialPlacement) (net_id : AtomNetId)
    (w : float) : Prop :=
  Forall (fun t => t_row t <> t_col t -> t_value t = (- w)%float)
    (tripletList (clique_net p net_id (mkAssembly [] [] []))).

(** The claim as the specification words it: an entry away from the
    diagonal equals the negated weight of a net. *)
Definition off_diagonal_is_negated_net_weight (p : PartialPlacement)
    (A : SparseMatrix) : Prop :=
  forall i j, i <> j -> has_entry A i j = true ->
    negated_net_weight p (coeff A i j).

(** The nets that get a star node. *)
Definition is_star_net (p : PartialPlacement) (net_id : AtomNetId) : bool :=
  negb (net_is_ignored_for_placement p net_id)
  && (3 <? length (net_pins (atom_netlist p) net_id)).

(** What Eigen's conjugate-gradient solver does with a right-hand side
    that holds a NaN or an infinity: the residual it ends with is a NaN, its
    convergence test fails, and [cg.info()] is not [Success].  Eigen is
    outside the sources; this is the condition on [cg_solve] under which the
    program is checked to stop on such a right-hand side. *)
Definition cg_rejects_non_finite
    (cg_solve : SparseMatrix -> Vec -> Vec * ComputationInfo) : Prop :=
  forall (A : SparseMatrix) (b : Vec),
    existsb non_finite b = true -> is_Success (snd (cg_solve A b)) = false.

(** [r > 0]. *)
Definition strictly_positive (r : float) : Prop := (0 <? r)%float = true.

(** A net the second loop can handle: it is skipped, or it has at least
    two pins. *)
Definition net_accepted (p : PartialPlacement) (net_id : AtomNetId) : Prop :=
  net_is_ignored_for_placement p net_id = false ->
  1 < length (net_pins (atom_netlist p) net_id).

(** A net at which the second loop stops: it is kept and has at most one
    pin. *)
Definition net_rejected (p : PartialPlacement) (net_id : AtomNetId) : Prop :=
  net_is_ignored_for_placement p net_id = false
  /\ length (net_pins (atom_netlist p) net_id) <= 1.

(** Two placements with the same netlist, the same split into moveable and
    fixed nodes, the same ignored nets and the same block-to-node map: they
    can differ in the positions only. *)
Definition same_connectivity (p p' : PartialPlacement) : Prop :=
  atom_netlist p' = atom_netlist p
  /\ num_moveable_nodes p' = num_moveable_nodes p
  /\ (forall net_id,
        net_is_ignored_for_placement p' net_id
        = net_is_ignored_for_placement p net_id)
  /\ (forall blk_id, get_node_id_from_blk p' blk_id = get_node_id_from_blk p blk_id).

(** The fixed nodes have the same x position in both placements. *)
Definition same_fixed_x (p p' : PartialPlacement) : Prop :=
  forall i, num_moveable_nodes p <= i ->
    vec_get (node_loc_x p') i = vec_get (node_loc_x p) i.

(** The fixed nodes have the same y position in both placements. *)
Definition same_fixed_y (p p' : PartialPlacement) : Prop :=
  forall i, num_moveable_nodes p <= i ->
    vec_get (node_loc_y p') i = vec_get (node_loc_y p) i.

(** Two assemblies with the same triplets, the same b_x if [x_same] and the
    same b_y if [y_same]. *)
Definition agree (x_same y_same : Prop) (st st' : Assembly) : Prop :=
  tripletList st' = tripletList st
  /\ (x_same -> asm_b_x st' = asm_b_x st)
  /\ (y_same -> asm_b_y st' = asm_b_y st).

(** [A.coeff(i,j) = A.coeff(j,i)] everywhere. *)
Definition symmetric (A : SparseMatrix) : Prop :=
  forall i j, coeff A i j = coeff A j i.

(** Every pin of every kept net is on a moveable node. *)
Definition all_pins_moveable (p : PartialPlacement) : Prop :=
  forall net_id pin_id,
    kept_net p net_id -> In pin_id (net_pins (atom_netlist p) net_id) ->
    is_moveable_node p
      (get_node_id_from_blk p (pin_block (atom_netlist p) pin_id)) = true.

(** The placement with the ignored nets taken out of its netlist. *)
Definition drop_ignored_nets (p : PartialPlacement) : PartialPlacement :=
  mkPlacement
    (mkNetlist
       (List.filter (fun net_id => negb (net_is_ignored_for_placement p net_id))
          (nets (atom_netlist p)))
       (net_pins (atom_netlist p)) (pin_block (atom_netlist p)))
    (num_moveable_nodes p) (node_loc_x p) (node_loc_y p)
    (net_is_ignored_for_placement p) (get_node_id_from_blk p).

(** The node a pin is on. *)
Definition node_of_pin (p : PartialPlacement) (pin_id : AtomPinId) : nat :=
  get_node_id_from_blk p (pin_block (atom_netlist p) pin_id).

(** The triplets of a connection between the unknowns [a] and [b] with
    weight [w], written out. *)
Definition connection (a b : nat) (w : float) : list Triplet :=
  [ mkTriplet a a w; mkTriplet b b w;
    mkTriplet a b (- w)%float; mkTriplet b a (- w)%float ].

(** What a net with the pins [pins] and the star node [s] contributes to
    the triplet list: pin after pin, a connection of weight [w] between the
    star node and the node of the pin if that node is moveable, and [w] on
    the diagonal of the star node if it is fixed. *)
Definition star_contribution (p : PartialPlacement) (s : nat) (w : float)
    (pins : list AtomPinId) : list Triplet :=
  flat_map
    (fun pin_id =>
       if is_moveable_node p (node_of_pin p pin_id)
       then connection s (node_of_pin p pin_id) w
       else [mkTriplet s s w])
    pins.

(** What the fixed pins of a star net add up to in the entry of its star
    node in a right-hand side: from zero, [w] times the position [loc] of
    each fixed node, in pin order. *)
Definition star_rhs (p : PartialPlacement) (loc : Vec) (w : float)
    (pins : list AtomPinId) : float :=
  fold_left
    (fun acc pin_id =>
       if is_moveable_node p (node_of_pin p pin_id) then acc
       else (acc + w * vec_get loc (node_of_pin p pin_id))%float)
    pins 0%float.

(** What a clique net whose pins are all on moveable nodes contributes to
    the triplet list: a connection of weight [w] for every pair of pin
    positions i < j, in the order of the two loops. *)
Definition clique_contribution (p : PartialPlacement) (w : float)
    (pins : list AtomPinId) : list Triplet :=
  flat_map
    (fun i =>
       flat_map
         (fun j =>
            connection (node_of_pin p (nth i pins 0))
              (node_of_pin p (nth j pins 0)) w)
         (seq (i + 1) (length pins - (i + 1))))
    (seq 0 (length pins)).

(** The system [s] is the one of the netlist of [p]: it has one unknown per
    moveable node and per kept net with more than three pins; the k-th such
    net owns the unknown [num_moveable_nodes + k], contributes its star
    connections with weight pins/(pins-1) to the triplet list, and the entry
    of its star node in b_x and b_y is what its fixed pins add up to; a kept
    net with at most three pins, all on moveable nodes, contributes a clique
    connection of weight 1/(pins-1) for each pair of its pins. *)
Definition system_of_netlist (p : PartialPlacement) (s : QPHybridSolver) : Prop :=
  let n_star := length (List.filter (is_star_net p) (nets (atom_netlist p))) in
  m_rows (A_sparse s) = num_moveable_nodes p + n_star
  /\ m_cols (A_sparse s) = num_moveable_nodes p + n_star
  /\ length (b_x s) = num_moveable_nodes p + n_star
  /\ length (b_y s) = num_moveable_nodes p + n_star
  /\ forall (l1 l2 : list AtomNetId) (net_id : AtomNetId),
      nets (atom_netlist p) = l1 ++ net_id :: l2 ->
      net_is_ignored_for_placement p net_id = false ->
      let pins := net_pins (atom_netlist p) net_id in
      let num_pins := Z.of_nat (length pins) in
      let star := num_moveable_nodes p + length (List.filter (is_star_net p) l1) in
      (3 < length pins ->
       let w := (double_of_int num_pins / double_of_int (num_pins - 1))%float in
       (exists before after,
           m_triplets (A_sparse s)
           = before ++ star_contribution p star w pins ++ after)
       /\ b_x s !! star = Some (star_rhs p (node_loc_x p) w pins)
       /\ b_y s !! star = Some (star_rhs p (node_loc_y p) w pins))
      /\ (length pins <= 3 ->
          (forall pin_id, In pin_id pins ->
             is_moveable_node p (node_of_pin p pin_id) = true) ->
          let w := (1 / double_of_int (num_pins - 1))%float in
          exists before after,
            m_triplets (A_sparse s)
            = before ++ clique_contribution p w pins ++ after).

(** Two states of the assembly with the same entries of b_x and b_y at the
    indices from [num_moveable_nodes] on, those of the star nodes. *)
Definition same_star_rhs (p : PartialPlacement) (st st' : Assembly) : Prop :=
  forall i, num_moveable_nodes p <= i ->
    asm_b_x st' !! i = asm_b_x st !! i /\ asm_b_y st' !! i = asm_b_y st !! i.

(** * Properties *)

(** ** How the matrix is assembled *)

Lemma fold_left_invariant {S X : Type} (I : S -> Prop) (f : S -> X -> S)
    (l : list X) :
  (forall s x, In x l -> I s -> I (f s x)) ->
  forall s, I s -> I (fold_left f l s).
Proof.
  induction l as [|x l IH]; intros Hstep s Hs; simpl; [assumption|].
  apply IH.
  - intros s' x' Hin. apply Hstep. now right.
  - apply Hstep; [now left | assumption].
Qed.

Section Assembly.

Variable p : PartialPlacement.
Variable n_star : nat.

Let asm (st : Assembly) : Prop := assembled p n_star st.

Lemma star_pin_assembled net_id off st pin_id :
  kept_net p net_id -> off < n_star -> asm st ->
  asm (star_pin p (net_weight p net_id) (num_moveable_nodes p + off) st pin_id).
Proof.
  intros Hk Hoff Hst. unfold asm, star_pin.
  assert (Hs : unknown p n_star (num_moveable_nodes p + off))
    by (eapply unknown_star; [exact Hoff | reflexivity]).
  destruct (is_moveable_node p _) eqn:Hm; simpl.
  - apply assembled_pair; auto using unknown_moveable.
  - eapply assembled_fixed; eauto.
Qed.

Lemma star_net_assembled net_id off st :
  kept_net p net_id -> off < n_star ->
  (3 <? length (net_pins (atom_netlist p) net_id)) = true ->
  asm st -> asm (star_net p net_id off st).
Proof.
  intros Hk Hoff H3 Hst. unfold star_net.
  replace (star_weight _) with (net_weight p net_id)
    by (unfold net_weight; now rewrite H3).
  apply (fold_left_invariant asm); [|assumption].
  intros s x _ Hs. now apply star_pin_assembled.
Qed.

Lemma clique_pair_assembled net_id acc jpin :
  kept_net p net_id -> asm (snd acc) ->
  asm (snd (clique_pair p net_id (net_weight p net_id) acc jpin)).
Proof.
  intros Hk. destruct acc as [first st]. unfold asm, clique_pair; simpl.
  intros Hst.
  set (second := get_node_id_from_blk p _).
  destruct (is_moveable_node p first) eqn:Hf,
           (is_moveable_node p second) eqn:Hs; simpl.
  - apply assembled_pair; auto using unknown_moveable.
  - eapply assembled_fixed; eauto using unknown_moveable.
  - eapply assembled_fixed; eauto using unknown_moveable.
  - assumption.
Qed.

Lemma clique_net_assembled net_id st :
  kept_net p net_id ->
  (3 <? length (net_pins (atom_netlist p) net_id)) = false ->
  asm st -> asm (clique_net p net_id st).
Proof.
  intros Hk H3 Hst. unfold clique_net.
  replace (clique_weight _) with (net_weight p net_id)
    by (unfold net_weight; now rewrite H3).
  apply (fold_left_invariant asm); [|assumption].
  intros s ipin _ Hs. unfold clique_pin.
  apply (fold_left_invariant (fun acc => asm (snd acc))); [|exact Hs].
  intros acc jpin _ Hacc. now apply clique_pair_assembled.
Qed.

Lemma nets_loop_assembled l :
  forall off st st',
    (forall net_id, In net_id l -> In net_id (nets (atom_netlist p))) ->
    off + count_star_nodes p l <= n_star ->
    asm st -> nets_loop p l off st = Ok st' -> asm st'.
Proof.
  induction l as [|net_id rest IH]; intros off st st' Hin Hcount Hst Hrun;
    simpl in Hrun.
  - now inversion Hrun; subst.
  - simpl in Hcount.
    assert (Hrest : forall n, In n rest -> In n (nets (atom_netlist p)))
      by (intros n Hn; apply Hin; now right).
    destruct (net_is_ignored_for_placement p net_id) eqn:Hign.
    + eapply IH; eauto.
    + assert (Hk : kept_net p net_id) by (split; [apply Hin; now left | exact Hign]).
      destruct (1 <? length _) eqn:H1; simpl in Hrun; [|discriminate].
      destruct (3 <? length _) eqn:H3.
      * eapply IH; [exact Hrest | | | exact Hrun]; [lia|].
        apply star_net_assembled; auto; lia.
      * eapply IH; [exact Hrest | exact Hcount | | exact Hrun].
        now apply clique_net_assembled.
Qed.

End Assembly.

Lemma entry_values_app (l1 l2 : list Triplet) (i j : nat) :
  entry_values (l1 ++ l2) i j = entry_values l1 i j ++ entry_values l2 i j.
Proof. unfold entry_values. now rewrite List.filter_app, map_app. Qed.

Ltac case_positions :=
  repeat match goal with
         | |- context [?x =? ?y] => destruct (Nat.eqb_spec x y); subst; simpl
         end.

Lemma connect_moveable_symmetric (a b : nat) (w : float) (i j : nat) :
  entry_values (connect_moveable a b w) i j
  = entry_values (connect_moveable a b w) j i.
Proof.
  unfold entry_values, connect_moveable, at_pos; simpl.
  case_positions; congruence.
Qed.

Lemma diagonal_symmetric (a : nat) (w : float) (i j : nat) :
  entry_values [mkTriplet a a w] i j = entry_values [mkTriplet a a w] j i.
Proof.
  unfold entry_values, at_pos; simpl. case_positions; congruence.
Qed.

Lemma assembled_symmetric p n_star st :
  assembled p n_star st ->
  forall i j,
    entry_values (tripletList st) i j = entry_values (tripletList st) j i.
Proof.
  induction 1 as [|st a b net_id _ IH _ _ _|st a f net_id _ IH _ _ _];
    intros i j; simpl.
  - reflexivity.
  - rewrite !entry_values_app, (IH i j). f_equal. apply connect_moveable_symmetric.
  - rewrite !entry_values_app, (IH i j). f_equal. apply diagonal_symmetric.
Qed.

Lemma assembled_off_diagonal p n_star st :
  assembled p n_star st ->
  forall i j, i <> j ->
    Forall (negated_net_weight p) (entry_values (tripletList st) i j).
Proof.
  induction 1 as [|st a b net_id _ IH _ _ Hk|st a f net_id _ IH _ _ _];
    intros i j Hij; simpl.
  - constructor.
  - rewrite entry_values_app. apply Forall_app. split; [now apply IH|].
    unfold entry_values, connect_moveable, at_pos; simpl.
    case_positions; try congruence;
      repeat constructor; now exists net_id.
  - rewrite entry_values_app. apply Forall_app. split; [now apply IH|].
    unfold entry_values, at_pos; simpl.
    case_positions; try congruence; constructor.
Qed.

Lemma assembled_indices p n_star st :
  assembled p n_star st ->
  Forall (fun t => unknown p n_star (t_row t) /\ unknown p n_star (t_col t))
    (tripletList st).
Proof.
  induction 1 as [|st a b net_id _ IH Ha Hb _|st a f net_id _ IH Ha _ _]; simpl.
  - constructor.
  - apply Forall_app. split; [exact IH|].
    unfold connect_moveable.
    repeat (apply List.Forall_cons; [split; assumption|]). apply List.Forall_nil.
  - apply Forall_app. split; [exact IH|].
    apply List.Forall_cons; [split; assumption|apply List.Forall_nil].
Qed.

Lemma populate_hybrid_matrix_assembled p s :
  populate_hybrid_matrix p = Ok s ->
  assembled p (count_star_nodes p (nets (atom_netlist p)))
    (mkAssembly (m_triplets (A_sparse s)) (b_x s) (b_y s))
  /\ m_rows (A_sparse s)
     = num_moveable_nodes p + count_star_nodes p (nets (atom_netlist p))
  /\ m_cols (A_sparse s) = m_rows (A_sparse s).
Proof.
  unfold populate_hybrid_matrix. intros H.
  destruct (nets_loop _ _ _ _) as [st|msg] eqn:Hloop; simpl in H; [|discriminate].
  inversion H; subst; simpl. split; [|split; reflexivity].
  replace (mkAssembly (tripletList st) (asm_b_x st) (asm_b_y st)) with st
    by now destruct st.
  eapply nets_loop_assembled; [| | |exact Hloop]; simpl;
    [auto | lia | apply assembled_start].
Qed.

Ltac float_discriminate H :=
  match type of H with
  | ?a = _ =>
      apply (f_equal (PrimFloat.eqb a)) in H; vm_compute in H; discriminate H
  end.

(** ** Clique weights (C1) *)

Lemma extends_with_refl Q st : extends_with Q st st.
Proof. exists []. split; [now rewrite app_nil_r | constructor]. Qed.

Lemma extends_with_trans Q st1 st2 st3 :
  extends_with Q st1 st2 -> extends_with Q st2 st3 -> extends_with Q st1 st3.
Proof.
  intros [g1 [E1 F1]] [g2 [E2 F2]]. exists (g1 ++ g2). split.
  - now rewrite E2, E1, concat_app, app_assoc.
  - apply Forall_app. now split.
Qed.

Lemma extends_with_one Q (st st' : Assembly) (g : list Triplet) :
  tripletList st' = tripletList st ++ g -> Q g -> extends_with Q st st'.
Proof.
  intros E HQ. exists [g]. split.
  - simpl. now rewrite app_nil_r.
  - now constructor.
Qed.

Lemma clique_pair_extends p net_id w acc jpin :
  extends_with (clique_connection p w) (snd acc)
    (snd (clique_pair p net_id w acc jpin)).
Proof.
  destruct acc as [first st]. unfold clique_pair; simpl.
  set (second := get_node_id_from_blk p _).
  destruct (is_moveable_node p first) eqn:Hf,
           (is_moveable_node p second) eqn:Hs; simpl.
  - eapply extends_with_one; [reflexivity|]. left. now exists first, second.
  - eapply extends_with_one; [reflexivity|]. right. now exists first.
  - eapply extends_with_one; [reflexivity|]. right. now exists second.
  - apply extends_with_refl.
Qed.

Lemma clique_net_extends p net_id st :
  extends_with
    (clique_connection p
       (clique_weight (Z.of_nat (length (net_pins (atom_netlist p) net_id)))))
    st (clique_net p net_id st).
Proof.
  unfold clique_net.
  apply (fold_left_invariant (extends_with _ st)); [|apply extends_with_refl].
  intros s ipin _ Hs. eapply extends_with_trans; [exact Hs|].
  unfold clique_pin.
  apply (fold_left_invariant
           (fun acc => extends_with _ s (snd acc))); [|apply extends_with_refl].
  intros acc jpin _ Hacc. eapply extends_with_trans; [exact Hacc|].
  apply clique_pair_extends.
Qed.




(** ** Shape of the assembled matrix (C4) *)

(** C4, as stated, fails: in [parallel_nets] two nets of weight 1 join the
    unknowns 0 and 1, and the entry between them is -2. *)
Lemma off_diagonal_counterexample :
  exists s,
    populate_hybrid_matrix parallel_nets = Ok s
    /\ coeff (A_sparse s) 0 1 = (-2)%float
    /\ net_weight parallel_nets 0 = 1%float
    /\ net_weight parallel_nets 1 = 1%float
    /\ ~ off_diagonal_is_negated_net_weight parallel_nets (A_sparse s).
Proof.
  eexists. split; [reflexivity|]. repeat split.
  intros H. specialize (H 0 1 ltac:(discriminate) eq_refl).
  destruct H as [net_id [[Hin _] Hv]].
  simpl in Hin. destruct Hin as [<-|[<-|[]]]; float_discriminate Hv.
Qed.

(** C4, amended: the matrix built by [populate_hybrid_matrix] is symmetric;
    every contribution to an entry away from the diagonal is the negated
    weight of a kept net, so that the entry is the sum of the negated weights
    of the connections made between the two unknowns; the matrix has one
    row and one column per moveable node and per star node, and every entry
    lies in the row and column of a moveable node or of a star node, so a
    fixed node receives none: the system is made of connections between two
    unknowns and of connections to a fixed node, and the latter only add to
    the diagonal entry of the unknown and to its entries of b_x and b_y. *)
Theorem hybrid_matrix_shape (p : PartialPlacement) (s : QPHybridSolver) :
  populate_hybrid_matrix p = Ok s ->
  let A := A_sparse s in
  let n_star := count_star_nodes p (nets (atom_netlist p)) in
  (forall i j, coeff A i j = coeff A j i)
  /\ (forall i j, i <> j ->
        Forall (negated_net_weight p) (entry_values (m_triplets A) i j))
  /\ m_rows A = num_moveable_nodes p + n_star
  /\ m_cols A = num_moveable_nodes p + n_star
  /\ Forall (fun t => unknown p n_star (t_row t) /\ unknown p n_star (t_col t))
       (m_triplets A)
  /\ assembled p n_star (mkAssembly (m_triplets A) (b_x s) (b_y s)).
Proof.
  intros H A n_star.
  destruct (populate_hybrid_matrix_assembled p s H) as (Hasm & Hrows & Hcols).
  fold A n_star in Hasm, Hrows, Hcols. repeat split.
  - intros i j. unfold coeff.
    exact (f_equal sum_duplicates (assembled_symmetric _ _ _ Hasm i j)).
  - intros i j Hij. exact (assembled_off_diagonal _ _ _ Hasm i j Hij).
  - exact Hrows.
  - now rewrite Hcols.
  - exact (assembled_indices _ _ _ Hasm).
  - exact Hasm.
Qed.

Lemma hybrid_matrix_shape_witness :
  exists s,
    populate_hybrid_matrix fixed_driver = Ok s
    /\ (forall i j, coeff (A_sparse s) i j = coeff (A_sparse s) j i)
    /\ m_rows (A_sparse s) = 2.
Proof.
  eexists. split; [reflexivity|].
  destruct (hybrid_matrix_shape fixed_driver _ eq_refl) as (Hsym & _ & Hrows & _).
  split; [exact Hsym | exact Hrows].
Defined.

(** ** Star nodes and clique pairs (C5) *)

Lemma count_star_nodes_filter (p : PartialPlacement) (l : list AtomNetId) :
  count_star_nodes p l = length (List.filter (is_star_net p) l).
Proof.
  induction l as [|net_id rest IH]; [reflexivity|].
  simpl. unfold is_star_net at 1.
  destruct (net_is_ignored_for_placement p net_id); simpl; [exact IH|].
  destruct (3 <? length _); simpl; now rewrite IH.
Qed.

(** The system has one unknown per moveable node and one per star net. *)
Lemma one_star_node_per_star_net (p : PartialPlacement) (s : QPHybridSolver) :
  populate_hybrid_matrix p = Ok s ->
  m_rows (A_sparse s)
  = num_moveable_nodes p
    + length (List.filter (is_star_net p) (nets (atom_netlist p))).
Proof.
  intros H. rewrite <- count_star_nodes_filter.
  now destruct (populate_hybrid_matrix_assembled p s H) as (_ & Hrows & _).
Qed.

(** A net with four pins on moveable nodes: one star node, with index 4,
    joined to each of the four nodes with weight 4/3. *)
Lemma four_pin_net_one_star_node :
  exists s,
    populate_hybrid_matrix four_moveable = Ok s
    /\ m_rows (A_sparse s) = 5
    /\ m_triplets (A_sparse s)
       = connect_moveable 4 0 (4 / 3) ++ connect_moveable 4 1 (4 / 3)
         ++ connect_moveable 4 2 (4 / 3) ++ connect_moveable 4 3 (4 / 3).
Proof. eexists. repeat split. Qed.

(** C5 at [fixed_driver], whose net has the pins F (fixed node 2 at x = 7,
    y = 3), M1 (node 0) and M2 (node 1).  The pairs with a moveable end are
    F-M1, F-M2 and M1-M2.  The program connects M1 to F, and then M1 to M2
    twice: after the swap made for the pair F-M1, [first_node_id] is M1 when
    the pair F-M2 is reached.  The entry between M1 and M2 gets two
    contributions and M2 gets nothing from F. *)
Theorem clique_swap_outlives_pair :
  exists s,
    populate_hybrid_matrix fixed_driver = Ok s
    /\ m_triplets (A_sparse s)
       = [mkTriplet 0 0 0.5] ++ connect_moveable 0 1 0.5 ++ connect_moveable 0 1 0.5
    /\ entry_values (m_triplets (A_sparse s)) 0 1 = [-0.5; -0.5]%float
    /\ b_x s = [3.5; 0]%float
    /\ b_y s = [1.5; 0]%float.
Proof. eexists. repeat split. Qed.

(** ** Loops that touch the entries [0 .. n-1] of a vector *)

Lemma fold_seq_pointwise (step : Vec -> nat -> Vec) (g : nat -> float -> float) :
  (forall (v : Vec) (k i : nat),
      step v k !! i = if (i =? k) then g k <$> (v !! i) else v !! i) ->
  forall (n : nat) (v : Vec) (i : nat),
    fold_left step (seq 0 n) v !! i
    = if (i <? n) then g i <$> (v !! i) else v !! i.
Proof.
  intros Hstep. induction n as [|n IH]; intros v i; [reflexivity|].
  rewrite seq_S, fold_left_app. simpl. rewrite Hstep, IH.
  destruct (Nat.eqb_spec i n) as [->|Hne].
  - rewrite Nat.ltb_irrefl.
    destruct (Nat.ltb_spec n (S n)); [reflexivity|lia].
  - destruct (Nat.ltb_spec i n), (Nat.ltb_spec i (S n)); try lia; reflexivity.
Qed.

Lemma vec_add_at_lookup (v : Vec) (k i : nat) (d : float) :
  vec_add_at v k d !! i
  = if (i =? k) then (fun x => (x + d)%float) <$> (v !! i) else v !! i.
Proof.
  unfold vec_add_at. destruct (Nat.eqb_spec i k) as [->|Hne].
  - apply list_lookup_alter_eq.
  - apply list_lookup_alter_ne. congruence.
Qed.

Lemma vec_store_lookup (v : Vec) (k i : nat) (c : float) :
  <[k := c]> v !! i = if (i =? k) then (fun _ => c) <$> (v !! i) else v !! i.
Proof.
  destruct (Nat.eqb_spec i k) as [->|Hne].
  - destruct (v !! k) eqn:Hk; simpl.
    + apply list_lookup_insert_eq. now apply lookup_lt_Some in Hk.
    + apply lookup_ge_None_2. rewrite length_insert. now apply lookup_ge_None_1.
  - apply list_lookup_insert_ne. congruence.
Qed.

(** ** The assembled system, net by net *)

Lemma assembled_lengths p n_star st :
  assembled p n_star st ->
  length (asm_b_x st) = num_moveable_nodes p + n_star
  /\ length (asm_b_y st) = num_moveable_nodes p + n_star.
Proof.
  induction 1 as [|st a b net_id _ IH _ _ _|st a f net_id _ IH _ _ _]; simpl.
  - unfold Vec_Zero. now rewrite !length_replicate.
  - exact IH.
  - unfold vec_add_at. now rewrite !length_alter.
Qed.

Lemma star_pins_triplets (p : PartialPlacement) (w : float) (s : nat)
    (pins : list AtomPinId) :
  forall st,
    tripletList (fold_left (star_pin p w s) pins st)
    = tripletList st ++ star_contribution p s w pins.
Proof.
  induction pins as [|pin rest IH]; intros st; simpl.
  - now rewrite app_nil_r.
  - rewrite IH. unfold star_pin, star_contribution. simpl.
    fold (node_of_pin p pin).
    destruct (is_moveable_node p (node_of_pin p pin)); simpl;
      now rewrite <- app_assoc.
Qed.

Lemma star_pins_rhs (p : PartialPlacement) (w : float) (s : nat)
    (pins : list AtomPinId) :
  forall st i,
    let step loc acc pin_id :=
      if is_moveable_node p (node_of_pin p pin_id) then acc
      else (acc + w * vec_get loc (node_of_pin p pin_id))%float in
    asm_b_x (fold_left (star_pin p w s) pins st) !! i
    = (if i =? s
       then (fun b0 => fold_left (step (node_loc_x p)) pins b0) <$> (asm_b_x st !! i)
       else asm_b_x st !! i)
    /\ asm_b_y (fold_left (star_pin p w s) pins st) !! i
       = (if i =? s
          then (fun b0 => fold_left (step (node_loc_y p)) pins b0) <$> (asm_b_y st !! i)
          else asm_b_y st !! i).
Proof.
  induction pins as [|pin rest IH]; intros st i step; simpl.
  - destruct (i =? s); split; try reflexivity;
      now destruct (_ !! i).
  - destruct (IH (star_pin p w s st pin) i) as [Hx Hy]. rewrite Hx, Hy.
    clear Hx Hy IH.
    unfold star_pin. fold (node_of_pin p pin). subst step. simpl.
    destruct (is_moveable_node p (node_of_pin p pin)); simpl.
    + split; reflexivity.
    + rewrite !vec_add_at_lookup.
      destruct (i =? s); [|split; reflexivity].
      split.
      * now destruct (asm_b_x st !! i).
      * now destruct (asm_b_y st !! i).
Qed.

Lemma connect_fixed_same_star_rhs (p : PartialPlacement) (a f : nat)
    (w : float) (st0 st : Assembly) :
  is_moveable_node p a = true ->
  same_star_rhs p st0 st -> same_star_rhs p st0 (connect_fixed p a f w st).
Proof.
  intros Ha Hst i Hi. destruct (Hst i Hi) as [Hx Hy].
  unfold is_moveable_node in Ha. apply Nat.ltb_lt in Ha.
  unfold connect_fixed; simpl. rewrite !vec_add_at_lookup.
  destruct (Nat.eqb_spec i a); [lia|]. now split.
Qed.

Lemma clique_net_same_star_rhs (p : PartialPlacement) (net_id : AtomNetId)
    (st : Assembly) :
  same_star_rhs p st (clique_net p net_id st).
Proof.
  unfold clique_net.
  apply (fold_left_invariant (same_star_rhs p st)); [|now intros i Hi].
  intros s ipin _ Hs. unfold clique_pin.
  apply (fold_left_invariant (fun acc => same_star_rhs p st (snd acc)));
    [|exact Hs].
  intros [first s'] jpin _ Hacc. simpl in Hacc. unfold clique_pair.
  set (second := get_node_id_from_blk p _).
  destruct (is_moveable_node p first) eqn:Hf,
           (is_moveable_node p second) eqn:Hsec; simpl.
  - exact Hacc.
  - now apply connect_fixed_same_star_rhs.
  - now apply connect_fixed_same_star_rhs.
  - exact Hacc.
Qed.

Lemma clique_net_grows (p : PartialPlacement) (net_id : AtomNetId)
    (st : Assembly) :
  exists added, tripletList (clique_net p net_id st) = tripletList st ++ added.
Proof.
  destruct (clique_net_extends p net_id st) as (groups & E & _). eauto.
Qed.

Lemma count_star_nodes_app (p : PartialPlacement) (l1 l2 : list AtomNetId) :
  count_star_nodes p (l1 ++ l2) = count_star_nodes p l1 + count_star_nodes p l2.
Proof.
  rewrite !count_star_nodes_filter, List.filter_app. apply length_app.
Qed.

Lemma nets_loop_app (p : PartialPlacement) (l1 l2 : list AtomNetId) :
  forall off st,
    nets_loop p (l1 ++ l2) off st
    = (st1 ← nets_loop p l1 off st;
       nets_loop p l2 (off + count_star_nodes p l1) st1).
Proof.
  induction l1 as [|net_id rest IH]; intros off st; simpl.
  - now rewrite Nat.add_0_r.
  - destruct (net_is_ignored_for_placement p net_id); [apply IH|].
    destruct (1 <? length _); simpl; [|reflexivity].
    destruct (3 <? length _).
    + rewrite IH. now rewrite Nat.add_succ_comm.
    + apply IH.
Qed.

(** A run of the second loop only appends triplets, and only writes the
    entries of b_x and b_y of moveable nodes and of its own star nodes. *)
Lemma nets_loop_frame (p : PartialPlacement) (l : list AtomNetId) :
  forall off st st',
    nets_loop p l off st = Ok st' ->
    (exists added, tripletList st' = tripletList st ++ added)
    /\ (forall i,
          num_moveable_nodes p <= i ->
          i < num_moveable_nodes p + off
          \/ num_moveable_nodes p + off + count_star_nodes p l <= i ->
          asm_b_x st' !! i = asm_b_x st !! i
          /\ asm_b_y st' !! i = asm_b_y st !! i).
Proof.
  induction l as [|net_id rest IH]; intros off st st' Hrun; simpl in Hrun.
  - inversion Hrun; subst. split; [exists []; now rewrite app_nil_r|auto].
  - simpl count_star_nodes.
    destruct (net_is_ignored_for_placement p net_id); [now apply IH|].
    destruct (1 <? length _); simpl in Hrun; [|discriminate].
    destruct (3 <? length _).
    + destruct (IH _ _ _ Hrun) as [[added Ht] Hb]. split.
      * rewrite Ht. unfold star_net. rewrite star_pins_triplets.
        rewrite <- app_assoc. eauto.
      * intros i Hi Hrange.
        destruct (Hb i Hi ltac:(lia)) as [Hx Hy]. rewrite Hx, Hy.
        unfold star_net.
        destruct (star_pins_rhs p
                    (star_weight (Z.of_nat (length (net_pins (atom_netlist p) net_id))))
                    (num_moveable_nodes p + off)
                    (net_pins (atom_netlist p) net_id) st i) as [Hx' Hy'].
        rewrite Hx', Hy'.
        destruct (Nat.eqb_spec i (num_moveable_nodes p + off)); [lia|].
        now split.
    + destruct (IH _ _ _ Hrun) as [[added Ht] Hb]. split.
      * rewrite Ht. destruct (clique_net_grows p net_id st) as [added' ->].
        rewrite <- app_assoc. eauto.
      * intros i Hi Hrange.
        destruct (Hb i Hi Hrange) as [Hx Hy]. rewrite Hx, Hy.
        now apply clique_net_same_star_rhs.
Qed.

Lemma clique_pairs_all_moveable (p : PartialPlacement) (net_id : AtomNetId)
    (w : float) (first : nat) (js : list nat) :
  let pins := net_pins (atom_netlist p) net_id in
  (forall pin_id, In pin_id pins ->
     is_moveable_node p (node_of_pin p pin_id) = true) ->
  is_moveable_node p first = true ->
  (forall j, In j js -> j < length pins) ->
  forall st,
    let r := fold_left (clique_pair p net_id w) js (first, st) in
    tripletList (snd r)
    = tripletList st
      ++ flat_map (fun j => connection first (node_of_pin p (nth j pins 0)) w) js.
Proof.
  intros pins Hall Hfirst.
  induction js as [|j js IH]; intros Hjs st; cbn [fold_left flat_map].
  - now rewrite app_nil_r.
  - assert (Hj : is_moveable_node p (node_of_pin p (nth j pins 0)) = true).
    { apply Hall. apply nth_In. apply Hjs. now left. }
    assert (Hstep : clique_pair p net_id w (first, st) j
                    = (first,
                       emplace_back st
                         (connect_moveable first (node_of_pin p (nth j pins 0)) w))).
    { unfold clique_pair, net_pin_block. fold pins.
      fold (node_of_pin p (nth j pins 0)). now rewrite Hfirst, Hj. }
    rewrite Hstep.
    rewrite IH by (intros j' Hj'; apply Hjs; now right).
    simpl. now rewrite <- app_assoc.
Qed.

Lemma clique_net_all_moveable (p : PartialPlacement) (net_id : AtomNetId)
    (st : Assembly) :
  let pins := net_pins (atom_netlist p) net_id in
  (forall pin_id, In pin_id pins ->
     is_moveable_node p (node_of_pin p pin_id) = true) ->
  tripletList (clique_net p net_id st)
  = tripletList st
    ++ clique_contribution p (clique_weight (Z.of_nat (length pins))) pins.
Proof.
  intros pins Hall. unfold clique_net, clique_contribution. fold pins.
  set (w := clique_weight _).
  assert (Hin : forall i, In i (seq 0 (length pins)) -> i < length pins)
    by (intros i Hi; apply in_seq in Hi; lia).
  revert st Hin. generalize (seq 0 (length pins)) as l.
  induction l as [|i l IH]; intros st Hin; cbn [fold_left flat_map].
  - now rewrite app_nil_r.
  - rewrite IH by (intros i' Hi'; apply Hin; now right).
    unfold clique_pin. unfold net_pin_block at 1.
    fold pins. fold (node_of_pin p (nth i pins 0)).
    rewrite (clique_pairs_all_moveable p net_id w); fold pins.
    + now rewrite <- app_assoc.
    + exact Hall.
    + apply Hall. apply nth_In. apply Hin. now left.
    + intros j Hj. apply in_seq in Hj. lia.
Qed.

(** What [populate_hybrid_matrix] returns is the system of the netlist. *)
Lemma populate_hybrid_matrix_system_of_netlist (p : PartialPlacement)
    (s : QPHybridSolver) :
  populate_hybrid_matrix p = Ok s -> system_of_netlist p s.
Proof.
  intros Hpop. unfold system_of_netlist.
  destruct (populate_hybrid_matrix_assembled p s Hpop) as (Hasm & Hrows & Hcols).
  destruct (assembled_lengths _ _ _ Hasm) as [Hlx Hly]. simpl in Hlx, Hly.
  rewrite <- count_star_nodes_filter.
  split; [exact Hrows|]. split; [now rewrite Hcols|].
  split; [exact Hlx|]. split; [exact Hly|].
  intros l1 l2 net_id Hnets Hign.
  set (pins := net_pins (atom_netlist p) net_id).
  set (star := num_moveable_nodes p + length (List.filter (is_star_net p) l1)).
  unfold populate_hybrid_matrix in Hpop.
  set (n := num_moveable_nodes p + count_star_nodes p (nets (atom_netlist p))) in *.
  set (st0 := mkAssembly [] (Vec_Zero n) (Vec_Zero n)) in *.
  destruct (nets_loop p (nets (atom_netlist p)) 0 st0) as [stf|msg] eqn:Hloop;
    simpl in Hpop; [|discriminate].
  inversion Hpop; subst s; simpl. clear Hpop Hasm Hrows Hcols Hlx Hly.
  rewrite Hnets, nets_loop_app in Hloop.
  destruct (nets_loop p l1 0 st0) as [st1|msg] eqn:Hl1; simpl in Hloop;
    [|discriminate].
  destruct (nets_loop_frame p l1 0 st0 st1 Hl1) as [[before Hbefore] Hb1].
  simpl in Hbefore.
  rewrite Hign in Hloop. fold pins in Hloop.
  destruct (1 <? length pins); simpl in Hloop; [|discriminate].
  assert (Hstar : star = num_moveable_nodes p + count_star_nodes p l1)
    by (unfold star; now rewrite count_star_nodes_filter).
  split.
  - intros H3. destruct (Nat.ltb_spec 3 (length pins)); [|lia].
    destruct (nets_loop_frame p l2 _ _ _ Hloop) as [[after Hafter] Hb2].
    split; [|].
    + exists before, after. rewrite Hafter. unfold star_net. fold pins.
      rewrite star_pins_triplets, Hbefore, <- Hstar, <- app_assoc.
      reflexivity.
    + assert (Hin : star < n).
      { unfold n. rewrite Hnets, count_star_nodes_app. simpl.
        rewrite Hign. fold pins.
        destruct (Nat.ltb_spec 3 (length pins)); lia. }
      assert (Hge : num_moveable_nodes p <= star) by lia.
      destruct (Hb2 star Hge ltac:(lia)) as [Hx2 Hy2].
      destruct (Hb1 star Hge ltac:(lia)) as [Hx1 Hy1].
      rewrite Hx2, Hy2. unfold star_net. fold pins. rewrite <- Hstar.
      destruct (star_pins_rhs p (star_weight (Z.of_nat (length pins))) star
                  pins st1 star) as [Hx Hy].
      rewrite Hx, Hy, Nat.eqb_refl, Hx1, Hy1. simpl.
      unfold Vec_Zero. rewrite !lookup_replicate_2 by exact Hin.
      split; reflexivity.
  - intros H3 Hall. destruct (Nat.ltb_spec 3 (length pins)); [lia|].
    destruct (nets_loop_frame p l2 _ _ _ Hloop) as [[after Hafter] _].
    exists before, after. rewrite Hafter.
    rewrite (clique_net_all_moveable p net_id st1 Hall), Hbefore, <- app_assoc.
    reflexivity.
Qed.

(** ** The solver call *)

Section SolverProperties.

Variable exp : float -> float.
Variable cg_compute : SparseMatrix -> ComputationInfo.
Variable cg_solve : SparseMatrix -> Vec -> Vec * ComputationInfo.
Variable debug_assertions : bool.

Lemma update_nodes_A (p : PartialPlacement) (w : float) (l : list nat)
    (s : QPHybridSolver) :
  m_triplets (A_sparse (fold_left (update_node p w) l s))
  = m_triplets (A_sparse s) ++ map (fun i => mkTriplet i i w) l.
Proof.
  revert s. induction l as [|k l IH]; intros s; simpl.
  - now rewrite app_nil_r.
  - rewrite IH. simpl. now rewrite <- app_assoc.
Qed.

Lemma update_nodes_b_x (p : PartialPlacement) (w : float) (l : list nat)
    (s : QPHybridSolver) :
  b_x (fold_left (update_node p w) l s)
  = fold_left (fun v k => vec_add_at v k (w * vec_get (node_loc_x p) k)%float)
      l (b_x s).
Proof. revert s. induction l as [|k l IH]; intros s; simpl; [|rewrite IH]; reflexivity. Qed.

Lemma update_nodes_b_y (p : PartialPlacement) (w : float) (l : list nat)
    (s : QPHybridSolver) :
  b_y (fold_left (update_node p w) l s)
  = fold_left (fun v k => vec_add_at v k (w * vec_get (node_loc_y p) k)%float)
      l (b_y s).
Proof. revert s. induction l as [|k l IH]; intros s; simpl; [|rewrite IH]; reflexivity. Qed.

Lemma diagonal_run_values (w : float) (n i j : nat) :
  entry_values (map (fun k => mkTriplet k k w) (seq 0 n)) i j
  = if (i =? j) && (i <? n) then [w] else [].
Proof.
  induction n as [|n IH]; [now rewrite andb_false_r|].
  rewrite seq_S, map_app, entry_values_app, IH. simpl.
  unfold entry_values, at_pos; simpl.
  destruct (Nat.eqb_spec i j) as [->|Hij]; simpl.
  - destruct (Nat.eqb_spec n j) as [->|Hn]; simpl.
    + rewrite Nat.ltb_irrefl. destruct (Nat.ltb_spec j (S j)); [reflexivity|lia].
    + destruct (Nat.ltb_spec j n), (Nat.ltb_spec j (S n)); try lia; reflexivity.
  - destruct (Nat.eqb_spec n i) as [->|Hn]; simpl; [|reflexivity].
    destruct (Nat.eqb_spec i j); [congruence|reflexivity].
Qed.

(** The pseudo-anchor pass, entry by entry. *)
Lemma populate_update_hybrid_matrix_entries (s : QPHybridSolver)
    (p : PartialPlacement) (iteration : nat) :
  let w := coeff_pseudo_anchor exp iteration in
  let diff := populate_update_hybrid_matrix exp s p iteration in
  let n := num_moveable_nodes p in
  (forall i j,
      entry_values (m_triplets (A_sparse diff)) i j
      = entry_values (m_triplets (A_sparse s)) i j
        ++ (if (i =? j) && (i <? n) then [w] else []))
  /\ (forall i,
        b_x diff !! i
        = if (i <? n)
          then (fun b => (b + w * vec_get (node_loc_x p) i)%float) <$> (b_x s !! i)
          else b_x s !! i)
  /\ (forall i,
        b_y diff !! i
        = if (i <? n)
          then (fun b => (b + w * vec_get (node_loc_y p) i)%float) <$> (b_y s !! i)
          else b_y s !! i).
Proof.
  intros w diff n. subst diff. unfold populate_update_hybrid_matrix.
  fold w. repeat split.
  - intros i j. now rewrite update_nodes_A, entry_values_app, diagonal_run_values.
  - intros i. rewrite update_nodes_b_x.
    apply (fold_seq_pointwise _
             (fun k b => (b + w * vec_get (node_loc_x p) k)%float)).
    intros v k i'. rewrite vec_add_at_lookup.
    destruct (Nat.eqb_spec i' k); [subst|]; reflexivity.
  - intros i. rewrite update_nodes_b_y.
    apply (fold_seq_pointwise _
             (fun k b => (b + w * vec_get (node_loc_y p) k)%float)).
    intros v k i'. rewrite vec_add_at_lookup.
    destruct (Nat.eqb_spec i' k); [subst|]; reflexivity.
Qed.

Lemma sum_duplicates_snoc (vs : list float) (w : float) :
  sum_duplicates (vs ++ [w])
  = match vs with
    | [] => w
    | _ :: _ => (sum_duplicates vs + w)%float
    end.
Proof.
  destruct vs as [|v vs]; [reflexivity|].
  simpl. now rewrite fold_left_app.
Qed.

Lemma has_entry_values (A : SparseMatrix) (i j : nat) :
  has_entry A i j
  = match entry_values (m_triplets A) i j with [] => false | _ :: _ => true end.
Proof.
  unfold has_entry, entry_values.
  induction (m_triplets A) as [|t l IH]; [reflexivity|].
  simpl. destruct (at_pos i j t); simpl; [reflexivity|exact IH].
Qed.

(** The pseudo-anchor pass, coefficient by coefficient. *)
Lemma populate_update_hybrid_matrix_coeff (s : QPHybridSolver)
    (p : PartialPlacement) (iteration : nat) :
  let w := coeff_pseudo_anchor exp iteration in
  let diff := populate_update_hybrid_matrix exp s p iteration in
  let n := num_moveable_nodes p in
  (forall i, i < n ->
     coeff (A_sparse diff) i i
     = if has_entry (A_sparse s) i i
       then (coeff (A_sparse s) i i + w)%float else w)
  /\ (forall i j, i <> j \/ n <= i ->
        coeff (A_sparse diff) i j = coeff (A_sparse s) i j).
Proof.
  intros w diff n.
  destruct (populate_update_hybrid_matrix_entries s p iteration) as (HA & _).
  fold w diff n in HA. split.
  - intros i Hi. unfold coeff. rewrite HA, Nat.eqb_refl. simpl.
    destruct (Nat.ltb_spec i n); [|lia].
    rewrite sum_duplicates_snoc, has_entry_values.
    destruct (entry_values (m_triplets (A_sparse s)) i i); reflexivity.
  - intros i j Hij. unfold coeff. rewrite HA.
    destruct (Nat.eqb_spec i j) as [->|Hne]; simpl.
    + destruct (Nat.ltb_spec j n); [lia|]. now rewrite app_nil_r.
    + now rewrite app_nil_r.
Qed.


Lemma write_back_fields (x y : Vec) (l : list nat) (p : PartialPlacement) :
  let p' := fold_left (write_node x y) l p in
  atom_netlist p' = atom_netlist p
  /\ num_moveable_nodes p' = num_moveable_nodes p
  /\ net_is_ignored_for_placement p' = net_is_ignored_for_placement p
  /\ get_node_id_from_blk p' = get_node_id_from_blk p
  /\ node_loc_x p'
     = fold_left (fun v k => <[k := vec_get x k]> v) l (node_loc_x p)
  /\ node_loc_y p'
     = fold_left (fun v k => <[k := vec_get y k]> v) l (node_loc_y p).
Proof.
  revert p. induction l as [|k l IH]; intros p; simpl; [tauto|].
  destruct (IH (write_node x y p k)) as (H1 & H2 & H3 & H4 & H5 & H6).
  rewrite H1, H2, H3, H4, H5, H6. simpl. tauto.
Qed.

Lemma write_back_lookup (p : PartialPlacement) (x y : Vec) (i : nat) :
  let n := num_moveable_nodes p in
  node_loc_x (write_back p x y) !! i
  = (if (i <? n) then (fun _ => vec_get x i) <$> (node_loc_x p !! i)
     else node_loc_x p !! i)
  /\ node_loc_y (write_back p x y) !! i
     = (if (i <? n) then (fun _ => vec_get y i) <$> (node_loc_y p !! i)
        else node_loc_y p !! i).
Proof.
  intros n. unfold write_back.
  destruct (write_back_fields x y (seq 0 n) p) as (_ & _ & _ & _ & Hx & Hy).
  fold n. rewrite Hx, Hy. split.
  - apply (fold_seq_pointwise _ (fun k _ => vec_get x k)).
    intros v k i'. rewrite vec_store_lookup.
    destruct (Nat.eqb_spec i' k); [subst|]; reflexivity.
  - apply (fold_seq_pointwise _ (fun k _ => vec_get y k)).
    intros v k i'. rewrite vec_store_lookup.
    destruct (Nat.eqb_spec i' k); [subst|]; reflexivity.
Qed.

Lemma write_back_uses_moveable_entries (p : PartialPlacement) (x y x' y' : Vec) :
  (forall i, i < num_moveable_nodes p ->
     vec_get x' i = vec_get x i /\ vec_get y' i = vec_get y i) ->
  write_back p x' y' = write_back p x y.
Proof.
  intros Hsame. unfold write_back.
  assert (Hfold : forall (l : list nat) (q : PartialPlacement),
             (forall k, In k l -> k < num_moveable_nodes p) ->
             fold_left (write_node x' y') l q = fold_left (write_node x y) l q).
  { induction l as [|k l IH]; intros q Hin; [reflexivity|].
    simpl. unfold write_node at 2 4.
    destruct (Hsame k (Hin k (or_introl eq_refl))) as [-> ->].
    apply IH. intros k' Hk'. apply Hin. now right. }
  apply Hfold. intros k Hk. apply in_seq in Hk. lia.
Qed.

(** What a successful [solve_system] returns. *)
Lemma solve_system_ok (diff : QPHybridSolver) (p p' : PartialPlacement) :
  solve_system cg_compute cg_solve debug_assertions diff p = Ok p' ->
  p' = write_back p (fst (cg_solve (A_sparse diff) (b_x diff)))
         (fst (cg_solve (A_sparse diff) (b_y diff)))
  /\ is_Success (cg_compute (A_sparse diff)) = true
  /\ is_Success (snd (cg_solve (A_sparse diff) (b_x diff))) = true
  /\ is_Success (snd (cg_solve (A_sparse diff) (b_y diff))) = true
  /\ (debug_assertions = true ->
      hasNaN (b_x diff) = false /\ hasNaN (b_y diff) = false).
Proof.
  unfold solve_system, VTR_ASSERT_DEBUG, VTR_ASSERT.
  destruct (cg_solve (A_sparse diff) (b_x diff)) as [x ix].
  destruct (cg_solve (A_sparse diff) (b_y diff)) as [y iy]. simpl.
  destruct debug_assertions, (hasNaN (b_x diff)), (hasNaN (b_y diff)),
    (is_Success (cg_compute (A_sparse diff))), (is_Success ix), (is_Success iy);
    simpl; intros H; try discriminate; inversion H; subst;
    intuition congruence.
Qed.

(** C8: when [solve] succeeds, the new placement is the old one with the
    solution stored at the moveable nodes: an x or y position of index below
    [num_moveable_nodes] is the solved value of that index, every position
    of a higher index (the fixed nodes) is as before, as are the other
    members of the placement; the solution entries from
    [num_moveable_nodes] on, those of the star nodes, have no effect. *)
Theorem solve_writes_moveable_only (iteration : nat) (self stored : QPHybridSolver)
    (p p' : PartialPlacement) :
  solve exp cg_compute cg_solve debug_assertions iteration self p
  = Ok (stored, p') ->
  let n := num_moveable_nodes p in
  exists x y : Vec,
    p' = write_back p x y
    /\ (exists diff, system_to_solve exp iteration self p = Ok (stored, diff)
                     /\ x = fst (cg_solve (A_sparse diff) (b_x diff))
                     /\ y = fst (cg_solve (A_sparse diff) (b_y diff)))
    /\ (forall i, i < n ->
          node_loc_x p' !! i = (fun _ => vec_get x i) <$> (node_loc_x p !! i)
          /\ node_loc_y p' !! i = (fun _ => vec_get y i) <$> (node_loc_y p !! i))
    /\ (forall i, n <= i ->
          node_loc_x p' !! i = node_loc_x p !! i
          /\ node_loc_y p' !! i = node_loc_y p !! i)
    /\ num_moveable_nodes p' = n
    /\ atom_netlist p' = atom_netlist p
    /\ (forall x' y' : Vec,
          (forall i, i < n ->
             vec_get x' i = vec_get x i /\ vec_get y' i = vec_get y i) ->
          write_back p x' y' = p').
Proof.
  intros H n. unfold solve in H.
  destruct (system_to_solve exp iteration self p) as [[stored0 diff]|msg] eqn:Hsys;
    simpl in H; [|discriminate].
  destruct (solve_system _ _ _ diff p) as [q|msg] eqn:Hq; simpl in H; [|discriminate].
  inversion H; subst stored0 q. clear H.
  destruct (solve_system_ok diff p p' Hq) as (Hp' & _).
  set (x := fst (cg_solve (A_sparse diff) (b_x diff))) in *.
  set (y := fst (cg_solve (A_sparse diff) (b_y diff))) in *.
  exists x, y. split; [exact Hp'|]. split; [now exists diff|].
  subst p'. repeat split.
  - destruct (write_back_lookup p x y i) as [Hx _]. rewrite Hx. fold n.
    destruct (Nat.ltb_spec i n); [reflexivity|lia].
  - destruct (write_back_lookup p x y i) as [_ Hy]. rewrite Hy. fold n.
    destruct (Nat.ltb_spec i n); [reflexivity|lia].
  - destruct (write_back_lookup p x y i) as [Hx _]. rewrite Hx. fold n.
    destruct (Nat.ltb_spec i n); [lia|reflexivity].
  - destruct (write_back_lookup p x y i) as [_ Hy]. rewrite Hy. fold n.
    destruct (Nat.ltb_spec i n); [lia|reflexivity].
  - unfold write_back. now destruct (write_back_fields x y (seq 0 n) p) as (_ & ? & _).
  - unfold write_back. now destruct (write_back_fields x y (seq 0 n) p) as (? & _).
  - intros x' y' Hsame. now apply write_back_uses_moveable_entries.
Qed.

(** When the system handed to the solver is [diff], the call ends in a
    fatal error as soon as the conjugate-gradient set-up or the solve for
    either axis does not report success, or a right-hand side holds a NaN in
    a build that keeps the debug assertions. *)
Lemma solve_aborts_on_failure (iteration : nat) (self stored diff : QPHybridSolver)
    (p : PartialPlacement) :
  system_to_solve exp iteration self p = Ok (stored, diff) ->
  is_Success (cg_compute (A_sparse diff)) = false
  \/ is_Success (snd (cg_solve (A_sparse diff) (b_x diff))) = false
  \/ is_Success (snd (cg_solve (A_sparse diff) (b_y diff))) = false
  \/ (debug_assertions = true
      /\ (hasNaN (b_x diff) = true \/ hasNaN (b_y diff) = true)) ->
  exists msg,
    solve exp cg_compute cg_solve debug_assertions iteration self p = Fatal msg.
Proof.
  intros Hsys Hfail. unfold solve. rewrite Hsys. simpl.
  destruct (solve_system cg_compute cg_solve debug_assertions diff p)
    as [p'|msg] eqn:Hrun; simpl; [|now exists msg].
  destruct (solve_system_ok diff p p' Hrun) as (_ & Hc & Hx & Hy & Hdbg).
  destruct Hfail as [H|[H|[H|[Hd H]]]]; try congruence.
  destruct (Hdbg Hd) as [Hbx Hby]. destruct H; congruence.
Qed.

End SolverProperties.

Lemma solve_writes_moveable_only_witness :
  exists stored p',
    solve exp_not_called cg_compute_succeeds cg_solve_succeeds false
      0 fresh_solver fixed_driver = Ok (stored, p')
    /\ node_loc_x p' !! 2 = node_loc_x fixed_driver !! 2
    /\ num_moveable_nodes p' = 2.
Proof.
  eexists. eexists. split; [reflexivity|].
  destruct (solve_writes_moveable_only exp_not_called cg_compute_succeeds
              cg_solve_succeeds false 0 fresh_solver _ fixed_driver _ eq_refl)
    as (x & y & _ & _ & _ & Hfixed & Hn & _).
  split; [apply (Hfixed 2); simpl; lia | exact Hn].
Defined.

Lemma solve_aborts_on_failure_witness :
  exists msg,
    solve exp_not_called cg_compute_succeeds cg_solve_diverges false
      0 fresh_solver fixed_driver = Fatal msg.
Proof.
  eapply (solve_aborts_on_failure exp_not_called cg_compute_succeeds
            cg_solve_diverges false 0 fresh_solver _ _ fixed_driver).
  - reflexivity.
  - right. left. reflexivity.
Defined.

Lemma cg_solve_checked_rejects_non_finite :
  cg_rejects_non_finite cg_solve_checked.
Proof.
  intros A b Hb. unfold cg_solve_checked. now rewrite Hb.
Qed.

(** C3: with a conjugate-gradient solver that does not report success on a
    right-hand side holding a NaN or an infinity (as Eigen's does), [solve]
    ends in a fatal error whenever the conjugate-gradient set-up or the
    solve for either axis does not report success, or b_x or b_y as handed
    to the solver holds a number that is not finite.  The error comes before
    the loop that stores the solution, so no position is written. *)
Theorem solve_aborts_on_failure_or_non_finite_rhs (exp : float -> float)
    (cg_compute : SparseMatrix -> ComputationInfo)
    (cg_solve : SparseMatrix -> Vec -> Vec * ComputationInfo)
    (debug_assertions : bool) (iteration : nat)
    (self stored diff : QPHybridSolver) (p : PartialPlacement) :
  cg_rejects_non_finite cg_solve ->
  system_to_solve exp iteration self p = Ok (stored, diff) ->
  is_Success (cg_compute (A_sparse diff)) = false
  \/ is_Success (snd (cg_solve (A_sparse diff) (b_x diff))) = false
  \/ is_Success (snd (cg_solve (A_sparse diff) (b_y diff))) = false
  \/ existsb non_finite (b_x diff) = true
  \/ existsb non_finite (b_y diff) = true ->
  exists msg,
    solve exp cg_compute cg_solve debug_assertions iteration self p = Fatal msg.
Proof.
  intros Hcg Hsys Hfail.
  apply (solve_aborts_on_failure exp cg_compute cg_solve debug_assertions
           iteration self stored diff p Hsys).
  destruct Hfail as [H|[H|[H|[H|H]]]].
  - now left.
  - right. now left.
  - right. right. now left.
  - right. left. now apply Hcg.
  - right. right. left. now apply Hcg.
Qed.

Lemma solve_aborts_on_failure_or_non_finite_rhs_witness :
  exists msg,
    solve exp_not_called cg_compute_succeeds cg_solve_checked false
      0 fresh_solver (fixed_neighbour nan) = Fatal msg.
Proof.
  eapply (solve_aborts_on_failure_or_non_finite_rhs exp_not_called
            cg_compute_succeeds cg_solve_checked false 0 fresh_solver _ _
            (fixed_neighbour nan) cg_solve_checked_rejects_non_finite).
  - reflexivity.
  - right. right. right. left. reflexivity.
Defined.

(** ** isSemiPosDef (C9) *)

(** For a number that is not a NaN, "not at most zero" is "above zero". *)
Lemma not_leb_zero_iff_positive (r : float) :
  PrimFloat.is_nan r = false ->
  ((r <=? 0)%float = false <-> strictly_positive r).
Proof.
  unfold strictly_positive, PrimFloat.is_nan. intros Hnan.
  rewrite FloatAxioms.eqb_spec in Hnan.
  rewrite FloatAxioms.leb_spec, FloatAxioms.ltb_spec.
  change (Prim2SF 0) with (S754_zero false).
  destruct (Prim2SF r) as [sg|sg| |sg m e]; cbn in *; try destruct sg; cbn in *;
    intuition congruence.
Qed.

Lemma eigenvalue_loop_forallb (values : list float) :
  eigenvalue_loop (to_VectorXcd values)
  = Ok (forallb (fun r => negb (r <=? 0)%float) values).
Proof.
  induction values as [|r values IH]; [reflexivity|].
  simpl. change (0 =? 0)%float with true. simpl.
  destruct (r <=? 0)%float; [reflexivity|exact IH].
Qed.




(** ** The consistency check of the placer (C2, C10) *)

Lemma int_wrap_small (z : Z) :
  (- 2 ^ 31 <= z < 2 ^ 31)%Z -> int_wrap z = z.
Proof.
  intros Hz. unfold int_wrap. rewrite Z.mod_small; lia.
Qed.

Lemma string_app_length (s t : string) :
  String.length (s ++ t) = String.length s + String.length t.
Proof. induction s as [|c s IH]; simpl; [reflexivity|now rewrite IH]. Qed.

Lemma string_app_inj_r (s1 s2 t : string) :
  (s1 ++ t)%string = (s2 ++ t)%string -> s1 = s2.
Proof.
  revert s2. induction s1 as [|c s1 IH]; intros [|c2 s2] H; simpl in H.
  - reflexivity.
  - apply (f_equal String.length) in H.
    rewrite !string_app_length in H; simpl in H;
      rewrite ?string_app_length in H; lia.
  - apply (f_equal String.length) in H.
    rewrite !string_app_length in H; simpl in H;
      rewrite ?string_app_length in H; lia.
  - inversion H; subst. f_equal. now apply IH.
Qed.

(** The error text determines the error count it was made from. *)
Lemma consistency_error_message_inj (e1 e2 : Z) :
  consistency_error_message e1 = consistency_error_message e2 -> e1 = e2.
Proof.
  unfold consistency_error_message. intros H.
  apply String.app_inj in H. apply String.app_inj in H.
  apply string_app_inj_r in H. now apply pretty_Z_inj in H.
Qed.

Section PlacerProperties.

Variable PL_INCREMENTAL_COST_TOLERANCE : float.
Variable comp_bb_cost : e_cost_methods -> float.
Variable comp_td_costs : float.
Variable initialize_timing_info : float.
Variable verify_placement : Z.
Variable check_noc_placement_costs : t_placer_costs -> Z.
Variable noc_routing_has_cycle : bool.
Variable comp_noc_aggregate_bandwidth_cost : float.
Variable comp_noc_latency_cost : float * float.
Variable comp_noc_congestion_cost : float.
Variable update_noc_normalization_factors : t_placer_costs -> NocCostTerms.
Variable get_total_cost : t_placer_costs -> float.

(** C2: [check_placement_costs_] recomputes the bounding-box cost in CHECK
    mode and, for a timing-driven algorithm, the timing cost, and returns
    how many of them are further from the tracked value than the tracked
    value times the tolerance.  [check_place_] succeeds exactly when the
    error count it has summed up is zero; otherwise it ends in the fatal
    error whose text states that count in decimal ("... check, 3 errors
    found. ..." for 3 errors), so that the count can be read back from the
    text.  As long as the counts of the collaborators are not negative and
    do not overflow an [int], the sum is zero exactly when no check found an
    error. *)
Theorem check_place_counts_mismatches (self : Placer) :
  let tol := PL_INCREMENTAL_COST_TOLERANCE in
  let check_placement_costs_ :=
    check_placement_costs_ tol comp_bb_cost comp_td_costs in
  let check_place_errors :=
    check_place_errors tol comp_bb_cost comp_td_costs verify_placement
      check_noc_placement_costs noc_routing_has_cycle in
  let check_place_ :=
    check_place_ tol comp_bb_cost comp_td_costs verify_placement
      check_noc_placement_costs noc_routing_has_cycle in
  let bb_off :=
    (bb_cost (costs_ self) * tol
     <? abs (comp_bb_cost CHECK - bb_cost (costs_ self)))%float in
  let timing_off :=
    is_timing_driven (place_algorithm self)
    && (timing_cost (costs_ self) * tol
        <? abs (comp_td_costs - timing_cost (costs_ self)))%float in
  check_placement_costs_ self = (Z.b2z bb_off + Z.b2z timing_off)%Z
  /\ (check_place_ self = Ok tt <-> check_place_errors self = 0%Z)
  /\ (check_place_errors self <> 0%Z ->
      let nl := String (Ascii.ascii_of_nat 10) EmptyString in
      check_place_ self
      = Fatal (nl ++ "Completed placement consistency check, "
                  ++ pretty (check_place_errors self) ++ " errors found."
                  ++ nl ++ "Aborting program." ++ nl)%string)
  /\ (forall e1 e2 : Z,
        consistency_error_message e1 = consistency_error_message e2 -> e1 = e2)
  /\ consistency_error_message 3
     = (String (Ascii.ascii_of_nat 10)
          "Completed placement consistency check, 3 errors found."
        ++ String (Ascii.ascii_of_nat 10) "Aborting program."
        ++ String (Ascii.ascii_of_nat 10) EmptyString)%string
  /\ ((0 <= verify_placement < 2 ^ 29)%Z ->
      (0 <= check_noc_placement_costs (costs_ self) < 2 ^ 29)%Z ->
      (check_place_errors self = 0%Z
       <-> verify_placement = 0%Z /\ bb_off = false /\ timing_off = false
           /\ (noc self = true ->
               check_noc_placement_costs (costs_ self) = 0%Z
               /\ noc_routing_has_cycle = false))).
Proof.
  intros tol cpc cpe cp bb_off timing_off.
  assert (Hcosts : cpc self = (Z.b2z bb_off + Z.b2z timing_off)%Z).
  { unfold cpc, check_placement_costs_, differs. fold tol bb_off.
    unfold timing_off.
    destruct bb_off, (is_timing_driven (place_algorithm self)); simpl;
      try reflexivity;
      destruct (_ <? _)%float; reflexivity. }
  split; [exact Hcosts|]. split; [|split; [|split; [|split]]].
  - unfold cp, check_place_. fold cpe.
    destruct (Z.eqb_spec (cpe self) 0); [easy|]. split; [discriminate|easy].
  - intros H nl. unfold cp, check_place_. fold cpe.
    destruct (Z.eqb_spec (cpe self) 0); [contradiction|reflexivity].
  - exact consistency_error_message_inj.
  - reflexivity.
  - intros Hv Hn. unfold cpe, check_place_errors. fold cpc. rewrite Hcosts.
    clearbody bb_off timing_off. unfold int_add.
    assert (Hb : forall b : bool, (0 <= Z.b2z b <= 1)%Z) by (intros []; simpl; lia).
    pose proof (Hb bb_off). pose proof (Hb timing_off).
    pose proof (Hb noc_routing_has_cycle).
    repeat match goal with
           | |- context [int_wrap ?z] => rewrite (int_wrap_small z) by lia
           end.
    destruct (noc self), bb_off, timing_off, noc_routing_has_cycle; simpl Z.b2z;
      intuition (try discriminate; try lia).
Qed.

(** C10: for an algorithm that is not timing-driven the constructor ends
    normally with the timing cost and its normalization factor both set to
    the quiet NaN; and whatever the costs are by the time of the check and
    whatever a recomputation of the timing cost would give,
    [check_placement_costs_] counts the bounding-box mismatch only, so its
    count is at most 1 and never includes the timing term. *)
Theorem bounding_box_run_skips_timing (alg : e_place_algorithm)
    (noc_enabled : bool) (costs0 : t_placer_costs) :
  is_timing_driven alg = false ->
  let tol := PL_INCREMENTAL_COST_TOLERANCE in
  (exists self,
      Placer_Placer tol comp_bb_cost comp_td_costs initialize_timing_info
        verify_placement check_noc_placement_costs noc_routing_has_cycle
        comp_noc_aggregate_bandwidth_cost comp_noc_latency_cost
        comp_noc_congestion_cost update_noc_normalization_factors
        get_total_cost alg noc_enabled costs0 = Ok self
      /\ place_algorithm self = alg
      /\ timing_cost (costs_ self) = nan
      /\ timing_cost_norm (costs_ self) = nan)
  /\ (forall (timing_cost_check : float) (c : t_placer_costs),
        check_placement_costs_ tol comp_bb_cost timing_cost_check
          (mkPlacer alg noc_enabled c)
        = Z.b2z (bb_cost c * tol <? abs (comp_bb_cost CHECK - bb_cost c))%float).
Proof.
  intros Halg tol. split.
  - unfold Placer_Placer. rewrite Halg.
    destruct alg; try discriminate Halg. simpl.
    destruct noc_enabled; simpl; eexists; repeat split.
  - intros timing_cost_check c. unfold check_placement_costs_, differs.
    simpl. rewrite Halg. fold tol.
    destruct (_ <? _)%float; reflexivity.
Qed.

End PlacerProperties.

Lemma bounding_box_run_skips_timing_witness :
  exists self,
    Placer_Placer 0.01 (fun _ => 10%float) 5 5 0 (fun _ => 0%Z) false
      0 (0, 0)%float 0 noc_cost_norm_factors bb_cost
      BOUNDING_BOX_PLACE false zero_costs = Ok self
    /\ place_algorithm self = BOUNDING_BOX_PLACE
    /\ timing_cost (costs_ self) = nan
    /\ timing_cost_norm (costs_ self) = nan.
Proof.
  apply (bounding_box_run_skips_timing 0.01 (fun _ => 10%float) 5 5 0
           (fun _ => 0%Z) false 0 (0, 0)%float 0 noc_cost_norm_factors bb_cost
           BOUNDING_BOX_PLACE false zero_costs eq_refl).
Defined.

(** ** Growth of the pseudo-anchor weight (C7) *)

Lemma pseudo_anchor_weight_spec_increasing (c0 decay : R) (k1 k2 : nat) :
  (0 < c0)%R -> (0 < decay)%R -> k1 < k2 ->
  (pseudo_anchor_weight_spec c0 decay k1 < pseudo_anchor_weight_spec c0 decay k2)%R.
Proof.
  intros Hc Hd Hlt. unfold pseudo_anchor_weight_spec.
  apply Rmult_lt_compat_l; [exact Hc|].
  apply exp_increasing. apply lt_INR in Hlt.
  unfold Rdiv. apply Rmult_lt_compat_r; [|exact Hlt].
  now apply Rinv_0_lt_compat.
Qed.



(** * Further properties of the solver and of the placer *)

(** ** NaN in comparisons *)

(** A float is a NaN exactly when its specification value is. *)
Lemma is_nan_Prim2SF (x : float) :
  PrimFloat.is_nan x = true <-> Prim2SF x = S754_nan.
Proof.
  unfold PrimFloat.is_nan. rewrite FloatAxioms.eqb_spec.
  destruct (Prim2SF x) as [sg|sg| |sg m e]; unfold SFeqb; simpl.
  - split; discriminate.
  - destruct sg; split; discriminate.
  - split; reflexivity.
  - destruct sg; rewrite Z.compare_refl, Pos.compare_cont_refl; simpl;
      split; discriminate.
Qed.

Lemma SFcompare_nan_r (x : spec_float) : SFcompare x S754_nan = None.
Proof. destruct x; reflexivity. Qed.

(** No number is below a NaN, and a NaN is below no number. *)
Lemma ltb_nan (x y : float) :
  PrimFloat.is_nan x = true \/ PrimFloat.is_nan y = true ->
  (x <? y)%float = false.
Proof.
  rewrite FloatAxioms.ltb_spec, !is_nan_Prim2SF. unfold SFltb.
  intros [-> | ->]; [reflexivity|]. now rewrite SFcompare_nan_r.
Qed.

Lemma leb_nan (x y : float) :
  PrimFloat.is_nan x = true \/ PrimFloat.is_nan y = true ->
  (x <=? y)%float = false.
Proof.
  rewrite FloatAxioms.leb_spec, !is_nan_Prim2SF. unfold SFleb.
  intros [-> | ->]; [reflexivity|]. now rewrite SFcompare_nan_r.
Qed.

Lemma mul_nan_l (x y : float) :
  PrimFloat.is_nan x = true -> PrimFloat.is_nan (x * y)%float = true.
Proof.
  rewrite !is_nan_Prim2SF, FloatAxioms.mul_spec. now intros ->.
Qed.

Lemma abs_sub_nan (x y : float) :
  PrimFloat.is_nan x = true \/ PrimFloat.is_nan y = true ->
  PrimFloat.is_nan (abs (x - y))%float = true.
Proof.
  rewrite !is_nan_Prim2SF, FloatAxioms.abs_spec, FloatAxioms.sub_spec.
  intros [-> | ->]; [reflexivity|].
  now destruct (Prim2SF x).
Qed.

(** ** isSemiPosDef and NaN eigenvalues *)

(** X1: when the eigenvalue solver succeeds, [isSemiPosDef] returns true
    exactly when every eigenvalue is strictly positive or a NaN: the test
    [real <= 0] is false for a NaN, so a NaN eigenvalue is never rejected. *)
Theorem isSemiPosDef_accepts_nan
    (eigen_solver : SparseMatrix -> ComputationInfo * list float)
    (A : SparseMatrix) (values : list float) :
  eigen_solver A = (Success, values) ->
  (isSemiPosDef eigen_solver A = Ok true
   <-> Forall (fun r => strictly_positive r \/ PrimFloat.is_nan r = true) values).
Proof.
  intros Hsolver. unfold isSemiPosDef. rewrite Hsolver. simpl.
  rewrite eigenvalue_loop_forallb. clear Hsolver. split.
  - intros H.
    assert (Hall : forallb (fun r => negb (r <=? 0)%float) values = true)
      by congruence.
    clear H. induction values as [|r values IH]; [constructor|].
    simpl in Hall. apply andb_prop in Hall as [Hhd Htl].
    constructor; [|now apply IH].
    destruct (PrimFloat.is_nan r) eqn:Hnan; [now right|left].
    apply not_leb_zero_iff_positive; [exact Hnan|].
    now apply negb_true_iff.
  - intros Hall. f_equal.
    induction Hall as [|r values Hr _ IH]; [reflexivity|].
    simpl. rewrite IH, andb_true_r. apply negb_true_iff.
    destruct Hr as [Hpos|Hnan].
    + destruct (PrimFloat.is_nan r) eqn:Hn.
      * unfold strictly_positive in Hpos.
        rewrite (ltb_nan 0 r (or_intror Hn)) in Hpos. discriminate Hpos.
      * now apply not_leb_zero_iff_positive.
    + apply leb_nan. now left.
Qed.

Lemma isSemiPosDef_accepts_nan_witness :
  isSemiPosDef eigen_solver_nan parallel_nets_matrix = Ok true.
Proof.
  apply (isSemiPosDef_accepts_nan eigen_solver_nan parallel_nets_matrix
           [nan; 1]%float eq_refl).
  constructor; [right; reflexivity|].
  constructor; [left; reflexivity|constructor].
Defined.

(** ** The cost check and NaN costs *)

(** X2: [check_placement_costs_] never counts a term one of whose two
    values, tracked or recomputed, is a NaN: with a NaN on the bounding-box
    side, and the timing side either skipped or with a NaN as well, it
    returns 0. *)
Theorem check_placement_costs_ignores_nan
    (PL_INCREMENTAL_COST_TOLERANCE : float)
    (comp_bb_cost : e_cost_methods -> float) (comp_td_costs : float)
    (self : Placer) :
  PrimFloat.is_nan (bb_cost (costs_ self)) = true
  \/ PrimFloat.is_nan (comp_bb_cost CHECK) = true ->
  is_timing_driven (place_algorithm self) = false
  \/ PrimFloat.is_nan (timing_cost (costs_ self)) = true
  \/ PrimFloat.is_nan comp_td_costs = true ->
  check_placement_costs_ PL_INCREMENTAL_COST_TOLERANCE comp_bb_cost
    comp_td_costs self = 0%Z.
Proof.
  intros Hbb Htd. unfold check_placement_costs_, differs.
  assert (Hoff : forall check tracked : float,
             PrimFloat.is_nan tracked = true \/ PrimFloat.is_nan check = true ->
             (tracked * PL_INCREMENTAL_COST_TOLERANCE
              <? abs (check - tracked))%float = false).
  { intros check tracked [Ht|Hc]; apply ltb_nan.
    - left. now apply mul_nan_l.
    - right. apply abs_sub_nan. now left. }
  rewrite (Hoff _ _ Hbb).
  destruct Htd as [-> | Htd]; [reflexivity|].
  rewrite (Hoff _ _ Htd). now destruct (is_timing_driven _).
Qed.

Lemma check_placement_costs_ignores_nan_witness :
  check_placement_costs_ 0.01 (fun _ => 10%float) 5 placer_with_nan_cost = 0%Z.
Proof.
  apply (check_placement_costs_ignores_nan 0.01 (fun _ => 10%float) 5
           placer_with_nan_cost).
  - left. reflexivity.
  - left. reflexivity.
Defined.

(** ** When populate_hybrid_matrix ends in an error *)

Lemma nets_loop_accepts (p : PartialPlacement) (l : list AtomNetId) :
  forall off st,
    (Forall (net_accepted p) l -> exists st', nets_loop p l off st = Ok st')
    /\ (Exists (net_rejected p) l ->
        nets_loop p l off st = Fatal "num_pins > 1").
Proof.
  induction l as [|net_id rest IH]; intros off st; simpl.
  - split; [now exists st|]. intros H. inversion H.
  - destruct (net_is_ignored_for_placement p net_id) eqn:Hign.
    + destruct (IH off st) as [IHok IHbad]. split.
      * intros H. inversion H; subst. now apply IHok.
      * intros H. inversion H as [? ? [Hk _]|]; subst; [congruence|].
        now apply IHbad.
    + destruct (Nat.ltb_spec 1 (length (net_pins (atom_netlist p) net_id)))
        as [Hlen|Hlen]; simpl.
      * destruct (3 <? length _).
        -- destruct (IH (S off) (star_net p net_id off st)) as [IHok IHbad].
           split.
           ++ intros H. inversion H; subst. now apply IHok.
           ++ intros H. inversion H as [? ? [_ Hl]|]; subst; [lia|].
              now apply IHbad.
        -- destruct (IH off (clique_net p net_id st)) as [IHok IHbad].
           split.
           ++ intros H. inversion H; subst. now apply IHok.
           ++ intros H. inversion H as [? ? [_ Hl]|]; subst; [lia|].
              now apply IHbad.
      * split; [|reflexivity].
        intros H. inversion H as [|? ? Hacc]; subst.
        specialize (Hacc Hign). lia.
Qed.

Lemma nets_accepted_or_rejected (p : PartialPlacement) (l : list AtomNetId) :
  Forall (net_accepted p) l \/ Exists (net_rejected p) l.
Proof.
  induction l as [|net_id rest IH]; [left; constructor|].
  unfold net_accepted, net_rejected in *.
  destruct (net_is_ignored_for_placement p net_id) eqn:Hign.
  - destruct IH as [IH|IH].
    + left. constructor; [rewrite Hign; discriminate|exact IH].
    + right. now apply Exists_cons_tl.
  - destruct (Nat.ltb_spec 1 (length (net_pins (atom_netlist p) net_id))).
    + destruct IH as [IH|IH].
      * left. constructor; [now rewrite Hign|exact IH].
      * right. now apply Exists_cons_tl.
    + right. apply Exists_cons_hd. now rewrite Hign.
Qed.

(** X3: [populate_hybrid_matrix] builds a system when every net is ignored
    or has at least two pins, and ends in the fatal error of the assertion
    [num_pins > 1] when some kept net has one pin or none; nothing else makes
    it fail. *)
Theorem populate_hybrid_matrix_fails_on_short_net (p : PartialPlacement) :
  (Forall (net_accepted p) (nets (atom_netlist p)) ->
   exists s, populate_hybrid_matrix p = Ok s)
  /\ (Exists (net_rejected p) (nets (atom_netlist p)) ->
      populate_hybrid_matrix p = Fatal "num_pins > 1")
  /\ (Forall (net_accepted p) (nets (atom_netlist p))
      \/ Exists (net_rejected p) (nets (atom_netlist p))).
Proof.
  unfold populate_hybrid_matrix.
  set (n := num_moveable_nodes p + _).
  destruct (nets_loop_accepts p (nets (atom_netlist p)) 0
              (mkAssembly [] (Vec_Zero n) (Vec_Zero n))) as [Hok Hbad].
  split; [|split].
  - intros H. destruct (Hok H) as [st' ->]. simpl. eauto.
  - intros H. now rewrite (Hbad H).
  - apply nets_accepted_or_rejected.
Qed.

(** ** Sizes and index bounds of the assembled system *)

Lemma unknown_in_range p n_star a :
  unknown p n_star a -> a < num_moveable_nodes p + n_star.
Proof.
  intros [Hm | k Hk ->]; [|lia].
  unfold is_moveable_node in Hm. apply Nat.ltb_lt in Hm. lia.
Qed.

(** X4: in the system [populate_hybrid_matrix] returns, the matrix is
    square, b_x and b_y have as many entries as the matrix has rows, and
    every triplet given to [setFromTriplets] has its row and its column
    inside the matrix. *)
Theorem populate_hybrid_matrix_in_bounds (p : PartialPlacement)
    (s : QPHybridSolver) :
  populate_hybrid_matrix p = Ok s ->
  let n := m_rows (A_sparse s) in
  m_cols (A_sparse s) = n
  /\ length (b_x s) = n
  /\ length (b_y s) = n
  /\ Forall (fun t => t_row t < n /\ t_col t < n) (m_triplets (A_sparse s)).
Proof.
  intros H n.
  destruct (populate_hybrid_matrix_assembled p s H) as (Hasm & Hrows & Hcols).
  destruct (assembled_lengths _ _ _ Hasm) as [Hx Hy]. simpl in Hx, Hy.
  subst n. rewrite Hrows. repeat split; try congruence.
  pose proof (assembled_indices _ _ _ Hasm) as Hidx. simpl in Hidx.
  eapply Forall_impl; [exact Hidx|].
  intros t [Hr Hc]. split; eapply unknown_in_range; eassumption.
Qed.

Lemma populate_hybrid_matrix_in_bounds_witness :
  exists s,
    populate_hybrid_matrix four_moveable = Ok s
    /\ length (b_x s) = m_rows (A_sparse s)
    /\ Forall (fun t => t_row t < m_rows (A_sparse s)
                       /\ t_col t < m_rows (A_sparse s))
         (m_triplets (A_sparse s)).
Proof.
  eexists. split; [reflexivity|].
  destruct (populate_hybrid_matrix_in_bounds four_moveable _ eq_refl)
    as (_ & Hx & _ & Hidx).
  split; [exact Hx | exact Hidx].
Defined.

(** ** The system does not depend on where the moveable nodes are *)

Lemma fold_left_related {S T X : Type} (R : S -> T -> Prop)
    (f : S -> X -> S) (g : T -> X -> T) (l : list X) :
  (forall s t x, R s t -> R (f s x) (g t x)) ->
  forall s t, R s t -> R (fold_left f l s) (fold_left g l t).
Proof.
  intros Hstep. induction l as [|x l IH]; intros s t Hst; simpl; [exact Hst|].
  apply IH. now apply Hstep.
Qed.

Section SameConnectivity.

Variables p p' : PartialPlacement.
Variable Hsame : same_connectivity p p'.

Let R : Assembly -> Assembly -> Prop :=
  agree (same_fixed_x p p') (same_fixed_y p p').

Lemma is_moveable_node_same (a : nat) :
  is_moveable_node p' a = is_moveable_node p a.
Proof using Hsame.
  destruct Hsame as (_ & Hn & _). unfold is_moveable_node. now rewrite Hn.
Qed.

Lemma emplace_back_agree st st' ts :
  R st st' -> R (emplace_back st ts) (emplace_back st' ts).
Proof.
  intros (Ht & Hx & Hy). unfold R, agree, emplace_back; simpl.
  rewrite Ht. auto.
Qed.

Lemma connect_fixed_agree st st' a fixed_id w :
  is_moveable_node p fixed_id = false ->
  R st st' ->
  R (connect_fixed p a fixed_id w st) (connect_fixed p' a fixed_id w st').
Proof.
  intros Hfixed (Ht & Hx & Hy).
  assert (Hge : num_moveable_nodes p <= fixed_id).
  { unfold is_moveable_node in Hfixed. apply Nat.ltb_ge in Hfixed. exact Hfixed. }
  unfold R, agree, connect_fixed; simpl. rewrite Ht. repeat split.
  - intros Hsx. now rewrite (Hx Hsx), (Hsx fixed_id Hge).
  - intros Hsy. now rewrite (Hy Hsy), (Hsy fixed_id Hge).
Qed.

Lemma star_net_agree net_id off st st' :
  R st st' -> R (star_net p net_id off st) (star_net p' net_id off st').
Proof using Hsame.
  intros Hst. unfold star_net.
  destruct Hsame as (Hnl & Hn & Hign & Hnode). rewrite Hnl, Hn.
  apply (fold_left_related R); [|exact Hst].
  intros s t pin_id Hs. unfold star_pin.
  rewrite Hnl, Hnode, is_moveable_node_same.
  destruct (is_moveable_node p _) eqn:Hm.
  - now apply emplace_back_agree.
  - now apply connect_fixed_agree.
Qed.

Lemma clique_pair_agree net_id w first st st' jpin :
  R st st' ->
  fst (clique_pair p' net_id w (first, st') jpin)
  = fst (clique_pair p net_id w (first, st) jpin)
  /\ R (snd (clique_pair p net_id w (first, st) jpin))
       (snd (clique_pair p' net_id w (first, st') jpin)).
Proof using Hsame.
  intros Hst. unfold clique_pair.
  destruct Hsame as (Hnl & Hn & Hign & Hnode).
  rewrite Hnl, Hnode, !is_moveable_node_same.
  set (second := get_node_id_from_blk p _).
  destruct (is_moveable_node p first) eqn:Hf,
           (is_moveable_node p second) eqn:Hs; simpl.
  - split; [reflexivity|]. now apply emplace_back_agree.
  - split; [reflexivity|]. now apply connect_fixed_agree.
  - split; [reflexivity|]. now apply connect_fixed_agree.
  - split; [reflexivity|exact Hst].
Qed.

Lemma clique_net_agree net_id st st' :
  R st st' -> R (clique_net p net_id st) (clique_net p' net_id st').
Proof using Hsame.
  intros Hst. unfold clique_net.
  destruct Hsame as (Hnl & Hn & Hign & Hnode). rewrite Hnl.
  apply (fold_left_related R); [|exact Hst].
  intros s t ipin Hs. unfold clique_pin. rewrite Hnl, Hnode.
  apply (fold_left_related
           (fun acc acc' => fst acc' = fst acc /\ R (snd acc) (snd acc')));
    [|now split].
  intros [f1 s1] [f2 s2] jpin [Hf Hr]. simpl in Hf, Hr. subst f2.
  now apply clique_pair_agree.
Qed.

Lemma count_star_nodes_same (l : list AtomNetId) :
  count_star_nodes p' l = count_star_nodes p l.
Proof using Hsame.
  destruct Hsame as (Hnl & Hn & Hign & Hnode).
  induction l as [|net_id rest IH]; [reflexivity|].
  simpl. now rewrite Hign, Hnl, IH.
Qed.

Lemma nets_loop_agree (l : list AtomNetId) :
  forall off st st',
    R st st' ->
    match nets_loop p l off st, nets_loop p' l off st' with
    | Ok r, Ok r' => R r r'
    | Fatal msg, Fatal msg' => msg' = msg
    | _, _ => False
    end.
Proof using Hsame.
  pose proof Hsame as (Hnl & Hn & Hign & Hnode).
  induction l as [|net_id rest IH]; intros off st st' Hst; simpl; [exact Hst|].
  rewrite Hign, Hnl.
  destruct (net_is_ignored_for_placement p net_id); [now apply IH|].
  destruct (1 <? length _); simpl; [|reflexivity].
  destruct (3 <? length _).
  - apply IH. now apply star_net_agree.
  - apply IH. now apply clique_net_agree.
Qed.

End SameConnectivity.

Lemma agree_start (X Y : Prop) (st : Assembly) : agree X Y st st.
Proof. repeat split; auto. Qed.

(** X5: the matrix [populate_hybrid_matrix] builds does not depend on the
    positions at all, b_x depends on the x positions of the fixed nodes only
    and b_y on their y positions only: for two placements that differ in
    positions only, the call fails for both with the same error or succeeds
    for both with the same matrix, with the same b_x when the fixed nodes
    have the same x, and with the same b_y when they have the same y. *)
Theorem populate_hybrid_matrix_ignores_moveable_positions
    (p p' : PartialPlacement) :
  same_connectivity p p' ->
  match populate_hybrid_matrix p, populate_hybrid_matrix p' with
  | Ok s, Ok s' =>
      A_sparse s' = A_sparse s
      /\ (same_fixed_x p p' -> b_x s' = b_x s)
      /\ (same_fixed_y p p' -> b_y s' = b_y s)
  | Fatal msg, Fatal msg' => msg' = msg
  | _, _ => False
  end.
Proof.
  intros Hsame. unfold populate_hybrid_matrix.
  pose proof Hsame as (Hnl & Hn & _).
  rewrite Hnl, Hn, (count_star_nodes_same p p' Hsame).
  set (n := num_moveable_nodes p + _).
  pose proof (nets_loop_agree p p' Hsame (nets (atom_netlist p)) 0 _ _
                (agree_start _ _ (mkAssembly [] (Vec_Zero n) (Vec_Zero n))))
    as Hloop.
  destruct (nets_loop p _ _ _) as [st|msg], (nets_loop p' _ _ _) as [st'|msg'];
    simpl; try exact Hloop.
  destruct Hloop as (Ht & Hx & Hy). rewrite Ht. auto.
Qed.

Lemma populate_hybrid_matrix_ignores_moveable_positions_witness :
  match populate_hybrid_matrix fixed_driver,
        populate_hybrid_matrix fixed_driver_moved with
  | Ok s, Ok s' =>
      A_sparse s' = A_sparse s
      /\ (same_fixed_x fixed_driver fixed_driver_moved -> b_x s' = b_x s)
      /\ (same_fixed_y fixed_driver fixed_driver_moved -> b_y s' = b_y s)
  | Fatal msg, Fatal msg' => msg' = msg
  | _, _ => False
  end.
Proof.
  apply (populate_hybrid_matrix_ignores_moveable_positions
           fixed_driver fixed_driver_moved).
  repeat split.
Defined.

Lemma populate_hybrid_matrix_same (p p' : PartialPlacement) :
  same_connectivity p p' -> same_fixed_x p p' -> same_fixed_y p p' ->
  populate_hybrid_matrix p' = populate_hybrid_matrix p.
Proof.
  intros Hsame Hx Hy. unfold populate_hybrid_matrix.
  pose proof Hsame as (Hnl & Hn & _).
  rewrite Hnl, Hn, (count_star_nodes_same p p' Hsame).
  set (n := num_moveable_nodes p + _).
  pose proof (nets_loop_agree p p' Hsame (nets (atom_netlist p)) 0 _ _
                (agree_start _ _ (mkAssembly [] (Vec_Zero n) (Vec_Zero n))))
    as Hloop.
  destruct (nets_loop p _ _ _) as [st|msg], (nets_loop p' _ _ _) as [st'|msg'];
    simpl; try contradiction; [|now subst].
  destruct Hloop as (Ht & Hbx & Hby). now rewrite Ht, (Hbx Hx), (Hby Hy).
Qed.

Lemma write_back_same_connectivity (p : PartialPlacement) (x y : Vec) :
  same_connectivity p (write_back p x y)
  /\ same_fixed_x p (write_back p x y)
  /\ same_fixed_y p (write_back p x y).
Proof.
  unfold write_back.
  destruct (write_back_fields x y (seq 0 (num_moveable_nodes p)) p)
    as (Hnl & Hn & Hign & Hnode & _).
  split; [|split].
  - repeat split; try assumption.
    + intros net_id. now rewrite Hign.
    + intros blk_id. now rewrite Hnode.
  - intros i Hi. destruct (write_back_lookup p x y i) as [Hx _].
    unfold vec_get, write_back in *. rewrite Hx.
    destruct (Nat.ltb_spec i (num_moveable_nodes p)); [lia|reflexivity].
  - intros i Hi. destruct (write_back_lookup p x y i) as [_ Hy].
    unfold vec_get, write_back in *. rewrite Hy.
    destruct (Nat.ltb_spec i (num_moveable_nodes p)); [lia|reflexivity].
Qed.

(** X6: a successful [solve] leaves a placement for which
    [populate_hybrid_matrix] would build the system it built for the
    placement before the call; so the system stored at iteration 0 is still
    the system of the placement after any number of successful calls. *)
Theorem solve_keeps_stored_system_valid (exp : float -> float)
    (cg_compute : SparseMatrix -> ComputationInfo)
    (cg_solve : SparseMatrix -> Vec -> Vec * ComputationInfo)
    (debug_assertions : bool) (iteration : nat)
    (self stored : QPHybridSolver) (p p' : PartialPlacement) :
  solve exp cg_compute cg_solve debug_assertions iteration self p
  = Ok (stored, p') ->
  populate_hybrid_matrix p' = populate_hybrid_matrix p
  /\ (iteration = 0 -> populate_hybrid_matrix p' = Ok stored)
  /\ (iteration <> 0 -> stored = self).
Proof.
  intros H. unfold solve in H.
  destruct (system_to_solve exp iteration self p) as [[stored0 diff]|msg] eqn:Hsys;
    simpl in H; [|discriminate].
  destruct (solve_system _ _ _ diff p) as [q|msg] eqn:Hq; simpl in H; [|discriminate].
  inversion H; subst stored0 q. clear H.
  destruct (solve_system_ok _ _ _ diff p p' Hq) as (-> & _).
  destruct (write_back_same_connectivity p
              (fst (cg_solve (A_sparse diff) (b_x diff)))
              (fst (cg_solve (A_sparse diff) (b_y diff)))) as (Hc & Hx & Hy).
  assert (Heq := populate_hybrid_matrix_same _ _ Hc Hx Hy).
  split; [exact Heq|]. unfold system_to_solve in Hsys. split.
  - intros ->. simpl in Hsys. rewrite Heq.
    destruct (populate_hybrid_matrix p); simpl in Hsys; [|discriminate].
    now inversion Hsys.
  - intros Hk. destruct (Nat.eqb_spec iteration 0); [contradiction|].
    simpl in Hsys. now inversion Hsys.
Qed.

Lemma solve_keeps_stored_system_valid_witness :
  exists stored p',
    solve exp_not_called cg_compute_succeeds cg_solve_succeeds false
      0 fresh_solver fixed_driver = Ok (stored, p')
    /\ populate_hybrid_matrix p' = Ok stored.
Proof.
  eexists. eexists. split; [reflexivity|].
  destruct (solve_keeps_stored_system_valid exp_not_called cg_compute_succeeds
              cg_solve_succeeds false 0 fresh_solver _ fixed_driver _ eq_refl)
    as (_ & H0 & _).
  now apply H0.
Defined.

(** ** The system handed to the conjugate-gradient solver is symmetric *)

Lemma update_nodes_rows (p : PartialPlacement)
    (w : float) (l : list nat) (s : QPHybridSolver) :
  let s' := fold_left (update_node p w) l s in
  m_rows (A_sparse s') = m_rows (A_sparse s)
  /\ m_cols (A_sparse s') = m_cols (A_sparse s)
  /\ length (b_x s') = length (b_x s)
  /\ length (b_y s') = length (b_y s).
Proof.
  revert s. induction l as [|k l IH]; intros s; simpl; [tauto|].
  destruct (IH (update_node p w s k)) as (H1 & H2 & H3 & H4).
  rewrite H1, H2, H3, H4. simpl. unfold vec_add_at.
  now rewrite !length_alter.
Qed.

(** X7: the system [solve] hands to the conjugate-gradient solver has a
    symmetric matrix of the size of the stored one, at iteration 0 always and
    at a later iteration whenever the stored matrix is symmetric: the
    pseudo-anchor pass touches the diagonal only and resizes nothing. *)
Theorem solved_system_symmetric (exp : float -> float) (iteration : nat)
    (self stored diff : QPHybridSolver) (p : PartialPlacement) :
  system_to_solve exp iteration self p = Ok (stored, diff) ->
  (iteration <> 0 -> symmetric (A_sparse self)) ->
  symmetric (A_sparse diff)
  /\ m_rows (A_sparse diff) = m_rows (A_sparse stored)
  /\ m_cols (A_sparse diff) = m_cols (A_sparse stored)
  /\ length (b_x diff) = length (b_x stored)
  /\ length (b_y diff) = length (b_y stored).
Proof.
  intros Hsys Hself. unfold system_to_solve in Hsys.
  destruct (Nat.eqb_spec iteration 0) as [->|Hk]; simpl in Hsys.
  - destruct (populate_hybrid_matrix p) as [s|msg] eqn:Hpop; simpl in Hsys;
      [|discriminate].
    inversion Hsys; subst stored diff. split; [|tauto].
    destruct (populate_hybrid_matrix_assembled p s Hpop) as (Hasm & _).
    intros i j. unfold coeff.
    exact (f_equal sum_duplicates (assembled_symmetric _ _ _ Hasm i j)).
  - inversion Hsys; subst stored diff. split.
    + intros i j.
      destruct (populate_update_hybrid_matrix_coeff exp self p iteration)
        as [_ Hoff].
      destruct (Nat.eq_dec i j) as [->|Hij]; [reflexivity|].
      rewrite (Hoff i j), (Hoff j i) by (left; congruence).
      now apply Hself.
    + apply update_nodes_rows.
Qed.

Lemma solved_system_symmetric_witness :
  exists stored diff,
    system_to_solve exp_not_called 0 fresh_solver fixed_driver = Ok (stored, diff)
    /\ symmetric (A_sparse diff).
Proof.
  eexists. eexists. split; [reflexivity|].
  assert (Hself : 0 <> 0 -> symmetric (A_sparse fresh_solver))
    by (intros H; now contradiction H).
  now destruct (solved_system_symmetric exp_not_called 0 fresh_solver _ _
                  fixed_driver eq_refl Hself) as [Hsym _].
Defined.

(** ** What one net adds *)

Lemma star_pin_diagonal (p : PartialPlacement) (w : float) (off : nat)
    (st : Assembly) (pin_id : AtomPinId) :
  let star_node_id := num_moveable_nodes p + off in
  entry_values (tripletList (star_pin p w star_node_id st pin_id))
    star_node_id star_node_id
  = entry_values (tripletList st) star_node_id star_node_id ++ [w].
Proof.
  intros star. unfold star_pin.
  set (node := get_node_id_from_blk p _).
  destruct (is_moveable_node p node) eqn:Hm; simpl;
    rewrite entry_values_app; f_equal.
  - assert (Hne : node <> star).
    { unfold is_moveable_node in Hm. apply Nat.ltb_lt in Hm. subst star. lia. }
    unfold entry_values, connect_moveable, at_pos; simpl.
    rewrite Nat.eqb_refl.
    destruct (Nat.eqb_spec node star); [contradiction|]. reflexivity.
  - unfold entry_values, at_pos; simpl. now rewrite Nat.eqb_refl.
Qed.

(** X8: a star net adds to the diagonal entry of its star node one weight
    for each of its pins, whether the pin is on a moveable or on a fixed
    node. *)
Theorem star_net_diagonal (p : PartialPlacement) (net_id : AtomNetId)
    (off : nat) (st : Assembly) :
  let star_node_id := num_moveable_nodes p + off in
  let pins := net_pins (atom_netlist p) net_id in
  let w := (double_of_int (Z.of_nat (length pins))
            / double_of_int (Z.of_nat (length pins) - 1))%float in
  entry_values (tripletList (star_net p net_id off st)) star_node_id star_node_id
  = entry_values (tripletList st) star_node_id star_node_id
    ++ replicate (length pins) w.
Proof.
  intros star pins w. unfold star_net.
  change (star_weight (Z.of_nat (length (net_pins (atom_netlist p) net_id))))
    with w.
  change (net_pins (atom_netlist p) net_id) with pins.
  change (num_moveable_nodes p + off) with star.
  clearbody w. clearbody pins. revert st.
  induction pins as [|pin rest IH]; intros st; simpl.
  - now rewrite app_nil_r.
  - rewrite IH. subst star. rewrite star_pin_diagonal.
    now rewrite <- app_assoc.
Qed.

Lemma net_pin_block_In (p : PartialPlacement) (net_id : AtomNetId) (ipin : nat) :
  ipin < length (net_pins (atom_netlist p) net_id) ->
  exists pin_id,
    In pin_id (net_pins (atom_netlist p) net_id)
    /\ net_pin_block (atom_netlist p) net_id ipin
       = pin_block (atom_netlist p) pin_id.
Proof.
  intros Hlt. exists (nth ipin (net_pins (atom_netlist p) net_id) 0).
  split; [now apply nth_In|reflexivity].
Qed.

(** X9: a clique net all of whose pins are on fixed nodes adds nothing:
    every pair of its pins is skipped. *)
Theorem clique_net_of_fixed_nodes (p : PartialPlacement) (net_id : AtomNetId)
    (st : Assembly) :
  (forall pin_id, In pin_id (net_pins (atom_netlist p) net_id) ->
     is_moveable_node p
       (get_node_id_from_blk p (pin_block (atom_netlist p) pin_id)) = false) ->
  clique_net p net_id st = st.
Proof.
  intros Hfixed. unfold clique_net.
  set (num_pins := length (net_pins (atom_netlist p) net_id)).
  apply (fold_left_invariant (fun s => s = st)); [|reflexivity].
  intros s ipin Hipin ->. apply in_seq in Hipin. unfold clique_pin.
  destruct (net_pin_block_In p net_id ipin ltac:(lia)) as (pin & Hpin & ->).
  assert (Hinv : forall l,
             (forall jpin, In jpin l -> jpin < num_pins) ->
             fold_left (clique_pair p net_id (clique_weight (Z.of_nat num_pins))) l
               (get_node_id_from_blk p (pin_block (atom_netlist p) pin), st)
             = (get_node_id_from_blk p (pin_block (atom_netlist p) pin), st)).
  { assert (Hstep : forall jpin, jpin < num_pins ->
               clique_pair p net_id (clique_weight (Z.of_nat num_pins))
                 (get_node_id_from_blk p (pin_block (atom_netlist p) pin), st) jpin
               = (get_node_id_from_blk p (pin_block (atom_netlist p) pin), st)).
    { intros jpin Hj. unfold clique_pair.
      destruct (net_pin_block_In p net_id jpin Hj) as (pin' & Hpin' & ->).
      now rewrite (Hfixed pin Hpin), (Hfixed pin' Hpin'). }
    induction l as [|jpin l IH]; intros Hl; [reflexivity|].
    cbn [fold_left]. rewrite Hstep by (apply Hl; now left).
    apply IH. intros j Hj. apply Hl. now right. }
  rewrite Hinv; [reflexivity|].
  intros jpin Hj. apply in_seq in Hj. lia.
Qed.

Lemma clique_net_of_fixed_nodes_witness :
  clique_net fixed_pair 0 (mkAssembly [] [0; 0]%float [0; 0]%float)
  = mkAssembly [] [0; 0]%float [0; 0]%float.
Proof.
  apply (clique_net_of_fixed_nodes fixed_pair 0).
  intros pin_id [<-|[<-|[]]]; reflexivity.
Defined.

(** ** Nets without fixed nodes, and ignored nets *)

Section AllMoveable.

Variable p : PartialPlacement.
Variable Hall : all_pins_moveable p.
Variables bx0 by0 : Vec.

Let keeps_rhs (st : Assembly) : Prop := asm_b_x st = bx0 /\ asm_b_y st = by0.

Lemma star_net_keeps_rhs net_id off st :
  kept_net p net_id -> keeps_rhs st -> keeps_rhs (star_net p net_id off st).
Proof using Hall.
  intros Hk Hst. unfold star_net.
  apply (fold_left_invariant keeps_rhs); [|exact Hst].
  intros s pin_id Hpin Hs. unfold star_pin.
  now rewrite (Hall net_id pin_id Hk Hpin).
Qed.

Lemma clique_net_keeps_rhs net_id st :
  kept_net p net_id -> keeps_rhs st -> keeps_rhs (clique_net p net_id st).
Proof using Hall.
  intros Hk Hst. unfold clique_net.
  set (num_pins := length (net_pins (atom_netlist p) net_id)).
  apply (fold_left_invariant keeps_rhs); [|exact Hst].
  intros s ipin Hipin Hs. apply in_seq in Hipin. unfold clique_pin.
  destruct (net_pin_block_In p net_id ipin ltac:(lia)) as (pin & Hpin & ->).
  apply (fold_left_invariant
           (fun acc => is_moveable_node p (fst acc) = true /\ keeps_rhs (snd acc)));
    [|split; [now apply (Hall net_id)|exact Hs]].
  intros [first s'] jpin Hj [Hfirst Hs']. simpl in Hfirst, Hs'.
  apply in_seq in Hj. unfold clique_pair.
  destruct (net_pin_block_In p net_id jpin ltac:(lia)) as (pin' & Hpin' & ->).
  rewrite Hfirst, (Hall net_id pin' Hk Hpin'). simpl. now split.
Qed.

Lemma nets_loop_keeps_rhs (l : list AtomNetId) :
  forall off st st',
    (forall net_id, In net_id l -> In net_id (nets (atom_netlist p))) ->
    keeps_rhs st -> nets_loop p l off st = Ok st' -> keeps_rhs st'.
Proof using Hall.
  induction l as [|net_id rest IH]; intros off st st' Hin Hst Hrun;
    simpl in Hrun.
  - now inversion Hrun; subst.
  - assert (Hrest : forall n, In n rest -> In n (nets (atom_netlist p)))
      by (intros n Hn; apply Hin; now right).
    destruct (net_is_ignored_for_placement p net_id) eqn:Hign.
    + eapply IH; eauto.
    + assert (Hk : kept_net p net_id)
        by (split; [apply Hin; now left | exact Hign]).
      destruct (1 <? length _); simpl in Hrun; [|discriminate].
      destruct (3 <? length _).
      * eapply IH; [exact Hrest | | exact Hrun].
        now apply star_net_keeps_rhs.
      * eapply IH; [exact Hrest | | exact Hrun].
        now apply clique_net_keeps_rhs.
Qed.

End AllMoveable.

(** X10: when every pin of every kept net is on a moveable node, the
    right-hand sides [populate_hybrid_matrix] returns are zero in every
    entry. *)
Theorem populate_hybrid_matrix_without_fixed_nodes (p : PartialPlacement)
    (s : QPHybridSolver) :
  all_pins_moveable p ->
  populate_hybrid_matrix p = Ok s ->
  b_x s = Vec_Zero (m_rows (A_sparse s))
  /\ b_y s = Vec_Zero (m_rows (A_sparse s)).
Proof.
  intros Hall H. unfold populate_hybrid_matrix in H.
  destruct (nets_loop _ _ _ _) as [st|msg] eqn:Hloop; simpl in H; [|discriminate].
  inversion H; subst; simpl.
  eapply (nets_loop_keeps_rhs p Hall); [| |exact Hloop]; simpl; auto.
Qed.

Lemma populate_hybrid_matrix_without_fixed_nodes_witness :
  exists s,
    populate_hybrid_matrix four_moveable = Ok s
    /\ b_x s = Vec_Zero 5 /\ b_y s = Vec_Zero 5.
Proof.
  eexists. split; [reflexivity|].
  apply (populate_hybrid_matrix_without_fixed_nodes four_moveable);
    [|reflexivity].
  intros net_id pin_id [Hnet _] Hpin. simpl in Hnet.
  destruct Hnet as [<-|[]]. simpl in Hpin.
  destruct Hpin as [<-|[<-|[<-|[<-|[]]]]]; reflexivity.
Defined.

Lemma nets_loop_drop_ignored (p : PartialPlacement) (l : list AtomNetId) :
  forall off st,
    nets_loop (drop_ignored_nets p)
      (List.filter (fun net_id => negb (net_is_ignored_for_placement p net_id)) l)
      off st
    = nets_loop p l off st.
Proof.
  induction l as [|net_id rest IH]; intros off st; [reflexivity|].
  simpl. destruct (net_is_ignored_for_placement p net_id) eqn:Hign; simpl.
  - apply IH.
  - rewrite Hign.
    destruct (1 <? length _); simpl; [|reflexivity].
    destruct (3 <? length _); apply IH.
Qed.

Lemma count_star_nodes_drop_ignored (p : PartialPlacement) (l : list AtomNetId) :
  count_star_nodes (drop_ignored_nets p)
    (List.filter (fun net_id => negb (net_is_ignored_for_placement p net_id)) l)
  = count_star_nodes p l.
Proof.
  induction l as [|net_id rest IH]; [reflexivity|].
  simpl. destruct (net_is_ignored_for_placement p net_id) eqn:Hign; simpl.
  - apply IH.
  - rewrite Hign. destruct (3 <? length _); now rewrite IH.
Qed.

(** X11: ignored nets have no effect: [populate_hybrid_matrix] gives the
    same result, system or error, once they are taken out of the netlist.
    In particular an ignored net with fewer than two pins does not trip the
    assertion. *)
Theorem populate_hybrid_matrix_skips_ignored_nets (p : PartialPlacement) :
  populate_hybrid_matrix (drop_ignored_nets p) = populate_hybrid_matrix p.
Proof.
  unfold populate_hybrid_matrix.
  change (nets (atom_netlist (drop_ignored_nets p)))
    with (List.filter (fun net_id => negb (net_is_ignored_for_placement p net_id))
            (nets (atom_netlist p))).
  rewrite count_star_nodes_drop_ignored.
  change (num_moveable_nodes (drop_ignored_nets p)) with (num_moveable_nodes p).
  now rewrite nets_loop_drop_ignored.
Qed.

(** ** Construction of the placer *)

Section PlacerConstruction.

Variable PL_INCREMENTAL_COST_TOLERANCE : float.
Variable comp_bb_cost : e_cost_methods -> float.
Variable comp_td_costs : float.
Variable initialize_timing_info : float.
Variable verify_placement : Z.
Variable check_noc_placement_costs : t_placer_costs -> Z.
Variable noc_routing_has_cycle : bool.
Variable comp_noc_aggregate_bandwidth_cost : float.
Variable comp_noc_latency_cost : float * float.
Variable comp_noc_congestion_cost : float.
Variable update_noc_normalization_factors : t_placer_costs -> NocCostTerms.
Variable get_total_cost : t_placer_costs -> float.

Let construct : e_place_algorithm -> bool -> t_placer_costs -> result Placer :=
  Placer_Placer PL_INCREMENTAL_COST_TOLERANCE comp_bb_cost comp_td_costs
    initialize_timing_info verify_placement check_noc_placement_costs
    noc_routing_has_cycle comp_noc_aggregate_bandwidth_cost
    comp_noc_latency_cost comp_noc_congestion_cost
    update_noc_normalization_factors get_total_cost.

(** X12: for a timing-driven algorithm the constructor runs the consistency
    check on the costs as they are right after the timing cost is
    initialised, the NoC terms still being those [costs_] was constructed
    with.  It ends in the fatal error of [check_place_], whose text states
    the error count in decimal, when that check counts an error; otherwise
    it returns a placer whose timing cost is the initialised one and whose
    timing normalization factor is its reciprocal. *)
Theorem timing_driven_constructor_checks_placement (alg : e_place_algorithm)
    (noc_enabled : bool) (costs0 : t_placer_costs) :
  is_timing_driven alg = true ->
  let checked :=
    mkPlacer alg noc_enabled
      (mkCosts (cost costs0) (comp_bb_cost NORMAL) initialize_timing_info
         (1 / comp_bb_cost NORMAL)%float (1 / initialize_timing_info)%float
         (noc_cost_terms costs0) (noc_cost_norm_factors costs0)) in
  let errors :=
    check_place_errors PL_INCREMENTAL_COST_TOLERANCE comp_bb_cost comp_td_costs
      verify_placement check_noc_placement_costs noc_routing_has_cycle checked in
  (errors <> 0%Z ->
   let nl := String (Ascii.ascii_of_nat 10) EmptyString in
   construct alg noc_enabled costs0
   = Fatal (nl ++ "Completed placement consistency check, "
               ++ pretty errors ++ " errors found."
               ++ nl ++ "Aborting program." ++ nl)%string)
  /\ (errors = 0%Z ->
      exists self,
        construct alg noc_enabled costs0 = Ok self
        /\ place_algorithm self = alg
        /\ timing_cost (costs_ self) = initialize_timing_info
        /\ timing_cost_norm (costs_ self) = (1 / initialize_timing_info)%float).
Proof.
  intros Halg checked errors.
  unfold construct, Placer_Placer, alloc_and_init_timing_objects_, check_place_,
    set_timing.
  rewrite Halg.
  cbn [cost bb_cost timing_cost bb_cost_norm timing_cost_norm noc_cost_terms
       noc_cost_norm_factors costs_ place_algorithm noc].
  fold checked. fold errors. split.
  - intros Hne. cbv zeta.
    destruct (Z.eqb_spec errors 0); [contradiction|reflexivity].
  - intros ->. simpl. destruct noc_enabled; simpl; eexists; repeat split.
Qed.

(** X13: whatever the algorithm, a placer that the constructor returns has
    the bounding-box cost computed in NORMAL mode and its reciprocal as
    normalization factor; the reciprocal is not guarded, so a zero cost gives
    an infinite factor.  Without NoC, the NoC cost terms and their
    normalization factors are the ones [costs_] was constructed with. *)
Theorem constructor_sets_bounding_box_costs (alg : e_place_algorithm)
    (noc_enabled : bool) (costs0 : t_placer_costs) (self : Placer) :
  construct alg noc_enabled costs0 = Ok self ->
  bb_cost (costs_ self) = comp_bb_cost NORMAL
  /\ bb_cost_norm (costs_ self) = (1 / comp_bb_cost NORMAL)%float
  /\ (comp_bb_cost NORMAL = 0%float -> bb_cost_norm (costs_ self) = infinity)
  /\ noc self = noc_enabled
  /\ (noc_enabled = false ->
      noc_cost_terms (costs_ self) = noc_cost_terms costs0
      /\ noc_cost_norm_factors (costs_ self) = noc_cost_norm_factors costs0).
Proof.
  unfold construct, Placer_Placer, alloc_and_init_timing_objects_.
  intros H.
  assert (Hinf : comp_bb_cost NORMAL = 0%float ->
                 (1 / comp_bb_cost NORMAL)%float = infinity)
    by (intros ->; reflexivity).
  destruct (is_timing_driven alg).
  - destruct (check_place_ _ _ _ _ _ _ _) as [[]|msg]; simpl in H;
      [|discriminate].
    destruct noc_enabled; simpl in H; inversion H; subst; simpl;
      repeat split; auto; discriminate.
  - destruct (is_BOUNDING_BOX_PLACE alg); simpl in H; [|discriminate].
    destruct noc_enabled; simpl in H; inversion H; subst; simpl;
      repeat split; auto; discriminate.
Qed.

End PlacerConstruction.

Lemma timing_driven_constructor_checks_placement_witness :
  exists self,
    Placer_Placer 0.01 (fun _ => 10%float) 5 5 0 (fun _ => 0%Z) false
      0 (0, 0)%float 0 noc_cost_norm_factors bb_cost
      CRITICALITY_TIMING_PLACE false zero_costs = Ok self
    /\ place_algorithm self = CRITICALITY_TIMING_PLACE
    /\ timing_cost (costs_ self) = 5%float
    /\ timing_cost_norm (costs_ self) = (1 / 5)%float.
Proof.
  destruct (timing_driven_constructor_checks_placement 0.01 (fun _ => 10%float)
              5 5 0 (fun _ => 0%Z) false 0 (0, 0)%float 0 noc_cost_norm_factors
              bb_cost CRITICALITY_TIMING_PLACE false zero_costs eq_refl)
    as [_ Hok].
  apply Hok. reflexivity.
Defined.

Lemma constructor_sets_bounding_box_costs_witness :
  exists self,
    Placer_Placer 0.01 (fun _ => 0%float) 5 5 0 (fun _ => 0%Z) false
      0 (0, 0)%float 0 noc_cost_norm_factors bb_cost
      BOUNDING_BOX_PLACE false zero_costs = Ok self
    /\ bb_cost_norm (costs_ self) = infinity.
Proof.
  eexists. split; [reflexivity|].
  destruct (constructor_sets_bounding_box_costs 0.01 (fun _ => 0%float) 5 5 0
              (fun _ => 0%Z) false 0 (0, 0)%float 0 noc_cost_norm_factors
              bb_cost BOUNDING_BOX_PLACE false zero_costs _ eq_refl)
    as (_ & _ & Hinf & _).
  now apply Hinf.
Defined.
